(** * fiano: UEFI firmware volumes, their parser and their assembler

    A shallow embedding of

    - [uefi/firmwarevolume.go]: [FindFirmwareVolumeOffset] and
      [NewFirmwareVolume] (module [Uefi]);
    - [visitors.Assemble.Visit], the post-order assembler, for the
      [FirmwareVolume], [File] and [Section] nodes (module [Visitors]);
    - the [Region] helpers exercised by [pkg/uefi/region_test.go]
      (module [Flash]);
    - the BIOSRegion and FlashImage cases of [Assemble.Visit], on the
      buffers of their assembled children (module [Regions]).

    Unsigned Go integers are [Z] with the wrap-around written out, bytes are
    [Init.Byte.byte], little-endian fields are read and written with
    coqutil's [le_combine] and [le_split].  A call ends in a [result]: a
    value, an [error], a panic or [log.Fatal].

    The parser works on Go slices with their capacity, since its slice
    expressions are checked against it.  The assembler builds its buffers
    with [append] and hands them over as values: they are lists here.

    The helpers of [pkg/uefi] that the assembler calls are either modelled
    from the specification (alignment, checksum, erase, insertion) or
    gathered in the class [Library], over which the theorems quantify;
    module [Reference] gives one library to run examples with, modules
    [Examples], [Images] and [Samples] the concrete inputs. *)

From Stdlib Require Import String.
From Stdlib Require Import ZArith List Lia Bool Sorted Permutation.
From coqutil Require Import Byte Word.LittleEndianList.
Import ListNotations.
Local Open Scope Z_scope.

(** ** Machine integers *)

Definition wrap16 (z : Z) : Z := z mod 2 ^ 16.
Definition wrap32 (z : Z) : Z := z mod 2 ^ 32.
Definition wrap64 (z : Z) : Z := z mod 2 ^ 64.

(** Length of a Go slice, as the [int] the program sees. *)
Definition len {A : Type} (l : list A) : Z := Z.of_nat (length l).

(** ** Outcomes of a Go call

    A call returns normally, returns a non-nil [error], panics (run-time
    bounds checks), or ends the process ([log.Fatal]). *)

Inductive error : Type :=
| ErrFVTooSmall (expected got : Z)
| EOF
| ErrUnexpectedEOF
| ErrExtHeader (cause : error)
| ErrBufferBiggerThanLength (length bufLen : Z)
| ErrDataOffsetMismatch (bufLen dataOffset : Z)
| ErrPadFileTooSmall (requested : Z)
| ErrInsertInMiddle (offset bufLen : Z)
| ErrFile (cause : error)
| ErrFirstBlockZeroSize
| ErrOddChecksumLength (length : Z)
| ErrUnknownGUIDDefined
| ErrCodec
| ErrHelper.

Inductive panic : Type :=
| SliceBoundsOutOfRange (high capacity : Z)
| IndexOutOfRange (index length : Z)
| MakeSliceLenOutOfRange (length : Z)
| NilDereference.

Inductive result (A : Type) : Type :=
| Ok (a : A)
| Err (e : error)
| Panic (p : panic)
| Fatal.

Arguments Ok {A} a.
Arguments Err {A} e.
Arguments Panic {A} p.
Arguments Fatal {A}.

Definition bind {A B : Type} (r : result A) (k : A -> result B) : result B :=
  match r with
  | Ok a => k a
  | Err e => Err e
  | Panic p => Panic p
  | Fatal => Fatal
  end.

Declare Scope go_scope.
Delimit Scope go_scope with go.
Notation "x <- r ;; k" := (bind r (fun x => k))
  (at level 61, r at next level, right associativity) : go_scope.
Notation "' p <- r ;; k" := (bind r (fun p => k))
  (at level 61, p pattern, r at next level, right associativity) : go_scope.
Local Open Scope go_scope.

(** ** Go slices

    A slice is a window on a backing array: [elems] are the [len] visible
    bytes, [spare] the bytes of the array between [len] and [cap].  The slice
    expression [s[low:high]] is checked against the capacity, not the length. *)

Record slice : Type := mkSlice { elems : list byte; spare : list byte }.

Definition slen (s : slice) : Z := len (elems s).
Definition scap (s : slice) : Z := len (elems s) + len (spare s).

(** A slice that owns its whole array, as [make([]byte, n)] or a literal. *)
Definition tight (l : list byte) : slice := mkSlice l [].

(** [s[low:high]] for [0 <= low]. *)
Definition reslice (s : slice) (low high : Z) : result slice :=
  if (high <? low) || (scap s <? high) then
    Panic (SliceBoundsOutOfRange high (scap s))
  else
    let arr := elems s ++ spare s in
    Ok (mkSlice (firstn (Z.to_nat (high - low)) (skipn (Z.to_nat low) arr))
                (skipn (Z.to_nat high) arr)).

(** [s[low:]]: the upper bound defaults to [len(s)]. *)
Definition reslice_from (s : slice) (low : Z) : result slice :=
  if slen s <? low then Panic (SliceBoundsOutOfRange low (slen s))
  else reslice s low (slen s).

Definition byte_eqb (a b : byte) : bool := Byte.eqb a b.

(** [bytes.Equal] *)
Fixpoint bytes_Equal (a b : list byte) : bool :=
  match a, b with
  | [], [] => true
  | x :: a', y :: b' => byte_eqb x y && bytes_Equal a' b'
  | _, _ => false
  end.

(** ** [bytes.Reader] with [binary.Read]

    [binary.Read] of an [n]-byte value is [io.ReadFull]: all [n] bytes, or
    [io.EOF] when nothing is left, or [io.ErrUnexpectedEOF] on a short read. *)

Definition readN (n : nat) (rest : list byte) : result (list byte * list byte) :=
  match rest with
  | [] => match n with O => Ok ([], []) | S _ => Err EOF end
  | _ :: _ =>
      if (length rest <? n)%nat then Err ErrUnexpectedEOF
      else Ok (firstn n rest, skipn n rest)
  end.

(** Little-endian field of [n] bytes at byte offset [off] of [b]. *)
Definition field (off n : nat) (b : list byte) : Z :=
  le_combine (firstn n (skipn off b)).

(** ** [uefi/firmwarevolume.go] *)

Module Uefi.

Definition FirmwareVolumeFixedHeaderSize : Z := 56.
Definition FirmwareVolumeMinSize : Z := FirmwareVolumeFixedHeaderSize + 8.
Definition FirmwareVolumeExtHeaderMinSize : Z := 20.

Definition FirmwareVolumeGUIDs : list (string * string) :=
  [ ("7a9354d9-0468-444a-81ce-0bf617d890df", "FFS1");
    ("8c8ce578-8a3d-4f1c-9935-896185c32dd3", "FFS2");
    ("5473c07a-3dcb-4dca-bd6f-1e9689e7349a", "FFS3");
    ("fff12b8d-7696-4c8b-a985-2747075b4f50", "NVRAM_EVSA");
    ("cef5b9a3-476d-497f-9fdc-e98143e0422c", "NVRAM_NVAR");
    ("00504624-8a59-4eeb-bd0f-6b36e96128e0", "NVRAM_EVSA2");
    ("04adeead-61ff-4d31-b6ba-64f8bf901f5a", "APPLE_BOOT");
    ("16b45da2-7d70-4aea-a58d-760e9ecb841d", "PFH1");
    ("e360bdba-c3ce-46be-8f37-b231e5cb9f35", "PFH2") ]%string.

Fixpoint lookupGUID (tbl : list (string * string)) (k : string) : option string :=
  match tbl with
  | [] => None
  | (k', v) :: tbl' => if String.eqb k k' then Some v else lookupGUID tbl' k
  end.

Record Block : Type := mkBlock { Count : Z; Size : Z }.

Record FirmwareVolumeFixedHeader : Type := mkFixedHeader {
  FileSystemGUID : list byte;
  Length : Z;
  Signature : Z;
  Attributes : Z;
  HeaderLen : Z;
  Checksum : Z;
  ExtHeaderOffset : Z;
  Reserved : Z;
  Revision : Z
}.

Record FirmwareVolumeExtHeader : Type := mkExtHeader {
  FVName : list byte;
  ExtHeaderSize : Z
}.

Record FirmwareVolume : Type := mkFirmwareVolume {
  FixedHeader : FirmwareVolumeFixedHeader;
  Blocks : list Block;
  ExtHeader : FirmwareVolumeExtHeader;
  guidString : string;
  guidName : string;
  buf : slice
}.

(** The zero value of the extended header, kept when none is read. *)
Definition zeroExtHeader : FirmwareVolumeExtHeader :=
  mkExtHeader (repeat Byte.x00 16) 0.

(** [[]byte("_FVH")] *)
Definition fvSig : list byte := [Byte.x5f; Byte.x46; Byte.x56; Byte.x48].

(** The values [offset] takes in
    [for offset = 32; offset < int64(len(data)); offset += 8]. *)
Definition scanOffsets (n : Z) : list Z :=
  map (fun k => 32 + 8 * Z.of_nat k) (seq 0 (Z.to_nat ((n - 32 + 7) / 8))).

Fixpoint scanSignature (data : slice) (offsets : list Z) : result Z :=
  match offsets with
  | [] => Ok (-1)
  | offset :: later =>
      w <- reslice data offset (offset + 4) ;;
      if bytes_Equal (elems w) fvSig then Ok (offset - 40)
      else scanSignature data later
  end.

Definition FindFirmwareVolumeOffset (data : slice) : result Z :=
  if slen data <? 32 then Ok (-1)
  else scanSignature data (scanOffsets (slen data)).

(** [binary.Read] into a [FirmwareVolumeFixedHeader]: 56 bytes, the first 16
    skipped. *)
Definition decodeFixedHeader (b : list byte) : FirmwareVolumeFixedHeader :=
  mkFixedHeader (firstn 16 (skipn 16 b))
                (field 32 8 b) (field 40 4 b) (field 44 4 b)
                (field 48 2 b) (field 50 2 b) (field 52 2 b)
                (field 54 1 b) (field 55 1 b).

Definition decodeBlock (b : list byte) : Block :=
  mkBlock (field 0 4 b) (field 4 4 b).

Definition decodeExtHeader (b : list byte) : FirmwareVolumeExtHeader :=
  mkExtHeader (firstn 16 b) (field 16 4 b).

(** The block-map loop.  Every turn consumes eight bytes of the reader, so the
    recursion is on what the reader has left. *)
Fixpoint readBlocks (rest : list byte) (blocks : list Block)
  : result (list Block * list byte) :=
  match rest with
  | b0 :: b1 :: b2 :: b3 :: b4 :: b5 :: b6 :: b7 :: rest' =>
      let block := decodeBlock [b0; b1; b2; b3; b4; b5; b6; b7] in
      if (Count block =? 0) && (Size block =? 0) then Ok (blocks, rest')
      else readBlocks rest' (blocks ++ [block])
  | [] => Err EOF
  | _ => Err ErrUnexpectedEOF
  end.

Section Parser.

(** [uuid.UUID.String], from the UUID package. *)
Variable UUIDString : list byte -> string.

Definition readExtHeader (data : slice) (h : FirmwareVolumeFixedHeader)
  : result FirmwareVolumeExtHeader :=
  if negb (ExtHeaderOffset h =? 0)
     && (ExtHeaderOffset h <? wrap64 (Length h - FirmwareVolumeExtHeaderMinSize))
  then
    r <- reslice_from data (ExtHeaderOffset h) ;;
    match readN 20 (elems r) with
    | Ok (b, _) => Ok (decodeExtHeader b)
    | Err e => Err (ErrExtHeader e)
    | Panic p => Panic p
    | Fatal => Fatal
    end
  else Ok zeroExtHeader.

Definition NewFirmwareVolume (data : slice) : result FirmwareVolume :=
  if slen data <? FirmwareVolumeMinSize then
    Err (ErrFVTooSmall FirmwareVolumeMinSize (slen data))
  else
    '(hb, rest) <- readN 56 (elems data) ;;
    let h := decodeFixedHeader hb in
    '(blocks, _) <- readBlocks rest [] ;;
    ext <- readExtHeader data h ;;
    let gs := UUIDString (FileSystemGUID h) in
    let gn := match lookupGUID FirmwareVolumeGUIDs gs with
              | Some n => n
              | None => "Unknown"%string
              end in
    b <- reslice data 0 (Length h) ;;
    Ok (mkFirmwareVolume h blocks ext gs gn b).

End Parser.

End Uefi.

(** ** [pkg/uefi]: the kernels and node types the assembler works on

    The assembler imports [github.com/linuxboot/fiano/pkg/uefi]; its alignment,
    checksum and erase kernels and its node types are described in sections 3,
    4.1 and 6 of the specification. *)

Module Visitors.

(** Modelled from the spec: the constant [uefi.FileHeaderMinLength], the
    24-byte File header
    [UUID[16] | IntegrityCheck:u16 | Type:u8 | Attributes:u8 | Size:u24 | State:u8]. *)
Definition FileHeaderMinLength : Z := 24.

(** Modelled from the spec: the constant [uefi.FileHeaderExtMinLength], the
    File header followed by the 8-byte extended Size of a large file. *)
Definition FileHeaderExtMinLength : Z := 32.

(** Modelled from the spec: [uefi.Align], "smallest [y >= x] with
    [y mod a == 0], for any [a >= 1]", on unsigned 64-bit offsets. *)
Definition Align (val base : Z) : Z := wrap64 ((val + base - 1) / base * base).

(** Modelled from the spec: the shorthands [uefi.Align4] and [uefi.Align8]. *)
Definition Align4 (val : Z) : Z := Align val 4.
Definition Align8 (val : Z) : Z := Align val 8.

(** Modelled from the spec: [uefi.Erase], "overwrites [buf] with [0x00] or
    [0xFF] as given". *)
Definition Erase (buf : list byte) (polarity : byte) : list byte :=
  map (fun _ => polarity) buf.

(** Sum of the 16-bit little-endian words of [buf], on 16 bits. *)
Fixpoint sum16 (buf : list byte) : Z :=
  match buf with
  | lo :: hi :: rest => wrap16 (le_combine [lo; hi] + sum16 rest)
  | _ => 0
  end.

(** Modelled from the spec: [uefi.Checksum16], "16-bit little-endian sum of
    16-bit words; fails if [len(buf)] is odd.  Returns the raw sum". *)
Definition Checksum16 (buf : list byte) : result Z :=
  if Z.odd (len buf) then Err (ErrOddChecksumLength (len buf))
  else Ok (sum16 buf).

(** [binary.LittleEndian.PutUintN(b[off:], v)] for a value of [n] bytes: the
    slice expression panics past the length, the store panics when fewer than
    [n] bytes follow [off]. *)
Definition putLE (n : nat) (b : list byte) (off v : Z) : result (list byte) :=
  if len b <? off then Panic (SliceBoundsOutOfRange off (len b))
  else if len b - off <? Z.of_nat n then
    Panic (IndexOutOfRange (Z.of_nat n - 1) (len b - off))
  else
    Ok (firstn (Z.to_nat off) b ++ le_split n v
          ++ skipn (Z.to_nat off + n) b).

Definition PutUint16 := putLE 2.
Definition PutUint32 := putLE 4.
Definition PutUint64 := putLE 8.

Record Block : Type := mkBlock { Count : Z; Size : Z }.

(** The parsed fields of a [FirmwareVolume] the assembler reads or writes. *)
Record VolumeFields : Type := mkVolumeFields {
  Length : Z;
  Attributes : Z;
  HeaderLen : Z;
  Blocks : list Block;
  DataOffset : Z
}.

(** [FileHeader]: the State byte is a field of its own, the alignment and the
    large-file flag are read from [FileAttributes]. *)
Record FileHeader : Type := mkFileHeader {
  UUID : list byte;
  IntegrityCheck : Z;
  FileType : Z;
  FileAttributes : Z;
  FileSize : Z;
  State : byte
}.

Record SectionGUIDDefined : Type := mkSectionGUIDDefined {
  GUID : list byte;
  GUIDDataOffset : Z;
  GUIDAttributes : Z
}.

Record SectionHeader : Type := mkSectionHeader {
  SectionSize : Z;
  SectionType : Z;
  TypeSpecific : option SectionGUIDDefined
}.

(** The tree.  [Files] are slices of File pointers, [Sections] are slices of Section pointers, and the
    [Encapsulated] children of a section hold any [Firmware] (the assembler
    reads them through [es.Value.Buf()]). *)
Inductive FirmwareVolume : Type :=
| mkFirmwareVolume (fields : VolumeFields) (buf : list byte) (Files : list File)
with File : Type :=
| mkFile (Header : FileHeader) (buf : list byte) (Sections : list Section)
with Section : Type :=
| mkSection (Header : SectionHeader) (buf : list byte)
            (Encapsulated : list Firmware)
with Firmware : Type :=
| FwVolume (fv : FirmwareVolume)
| FwFile (f : File)
| FwSection (s : Section).

Definition VolumeOf (f : FirmwareVolume) : VolumeFields :=
  match f with mkFirmwareVolume x _ _ => x end.
Definition VolumeBuf (f : FirmwareVolume) : list byte :=
  match f with mkFirmwareVolume _ b _ => b end.
Definition Files (f : FirmwareVolume) : list File :=
  match f with mkFirmwareVolume _ _ fs => fs end.

Definition Header (f : File) : FileHeader :=
  match f with mkFile h _ _ => h end.
Definition FileBuf (f : File) : list byte :=
  match f with mkFile _ b _ => b end.
Definition Sections (f : File) : list Section :=
  match f with mkFile _ _ ss => ss end.

Definition SecHeader (s : Section) : SectionHeader :=
  match s with mkSection h _ _ => h end.
Definition SectionBuf (s : Section) : list byte :=
  match s with mkSection _ b _ => b end.
Definition Encapsulated (s : Section) : list Firmware :=
  match s with mkSection _ _ es => es end.

(** [Firmware.Buf()] *)
Definition Buf (f : Firmware) : list byte :=
  match f with
  | FwVolume fv => VolumeBuf fv
  | FwFile fl => FileBuf fl
  | FwSection s => SectionBuf s
  end.

(** Modelled from the spec: [uefi.SectionTypeGUIDDefined], "Type 0x02". *)
Definition SectionTypeGUIDDefined : Z := 2.

(** Modelled from the spec: [uefi.GUIDEDSectionProcessingRequired], "Bit 0 of
    Attributes is PROCESSING_REQUIRED". *)
Definition GUIDEDSectionProcessingRequired : Z := 1.

(** Modelled from the spec: the alignment bases a File header can ask for,
    "1, 16, 128, 512, 1 KiB, 4 KiB, 32 KiB, 64 KiB". *)
Definition AlignmentBases : list Z := [1; 16; 128; 512; 1024; 4096; 32768; 65536].

(** The helpers of [pkg/uefi] and [pkg/lzma] that [Assemble.Visit] calls and
    whose bodies the specification leaves open: how the attribute words are
    decoded, how headers are serialised, and the codecs.  The theorems below
    quantify over every such library and name the contract they rely on. *)
Class Library : Type := {
  (** [FirmwareVolume.GetErasePolarity], decoded from the FV attributes *)
  GetErasePolarity : Z -> byte;
  (** [FileHeaderAttributes.GetAlignment] *)
  GetAlignment : Z -> Z;
  (** the large-file flag of the File attributes *)
  IsLarge : Z -> bool;
  (** [uefi.CreatePadFile], under the erase polarity in force *)
  CreatePadFile : byte -> Z -> result File;
  (** [File.SetSize] *)
  SetSize : File -> Z -> bool -> File;
  (** [File.ChecksumAndAssemble] *)
  ChecksumAndAssemble : File -> list byte -> result File;
  (** [Section.GenSecHeader] *)
  GenSecHeader : Section -> result Section;
  LZMAGUID : list byte;
  LZMAX86GUID : list byte;
  (** [lzma.Encode] and [lzma.EncodeX86] *)
  lzmaEncode : list byte -> result (list byte);
  lzmaEncodeX86 : list byte -> result (list byte)
}.

(** Contract of [GetAlignment]: one of the enumerated bases. *)
Definition AlignmentEnumerated (L : Library) : Prop :=
  forall attrs, In (GetAlignment attrs) AlignmentBases.

(** Contract of [CreatePadFile]: "a pad file of length
    [newOffset - aligned]". *)
Definition PadFileSized (L : Library) : Prop :=
  forall polarity size pf,
    CreatePadFile polarity size = Ok pf -> len (FileBuf pf) = size.

(** An error wrapped by [fmt.Errorf("File %s: %v", uuid, err)]. *)
Definition fileError {A : Type} (r : result A) : result A :=
  match r with
  | Err e => Err (ErrFile e)
  | other => other
  end.

(** Modelled from the spec: [FirmwareVolume.InsertFile], "insert the file at
    [newOffset]"; the hole up to the offset is filled with the erase polarity
    ("every byte in a hole inside an FV equals the polarity").  An offset
    before the end of the buffer cannot be served by appending and is an
    error. *)
Definition InsertFile (polarity : byte) (fvBuf : list byte) (alignedOffset : Z)
    (fBuf : list byte) : result (list byte) :=
  if alignedOffset <? len fvBuf then
    Err (ErrInsertInMiddle alignedOffset (len fvBuf))
  else
    Ok (fvBuf ++ repeat polarity (Z.to_nat (alignedOffset - len fvBuf)) ++ fBuf).

(** The loop shared by the [File] and the [Section] case: every child buffer
    is appended after zero bytes up to the next multiple of four.
    [dLen] is the [uint64] the code keeps next to the buffer. *)
Fixpoint concatAlign4 (children : list (list byte)) (data : list byte) (dLen : Z)
  : list byte * Z :=
  match children with
  | [] => (data, dLen)
  | sData :: later =>
      let count := wrap64 (Align4 dLen - dLen) in
      let data := data ++ repeat Byte.x00 (Z.to_nat count) in
      let dLen := Align4 dLen in
      let dLen := wrap64 (dLen + len sData) in
      concatAlign4 later (data ++ sData) dLen
  end.

(** [f.ApplyChildren(v)]: the visitor on each direct child in definition
    order, the first error ending the walk.  The erase polarity, a
    package-level variable in the source, is threaded through. *)
Definition applyChildren {A : Type} (visit : A -> byte -> result (A * byte))
  : list A -> byte -> result (list A * byte) :=
  fix walk (children : list A) (polarity : byte) :=
    match children with
    | [] => Ok ([], polarity)
    | c :: later =>
        '(c', polarity) <- visit c polarity ;;
        '(later', polarity) <- walk later polarity ;;
        Ok (c' :: later', polarity)
    end.

Section Assembler.

Context {L : Library}.

(** Modelled from the spec: [File.HeaderLen], 24 bytes, or 32 when the
    attributes carry the large-file flag. *)
Definition FileHeaderLen (f : File) : Z :=
  if IsLarge (FileAttributes (Header f)) then FileHeaderExtMinLength
  else FileHeaderMinLength.

(** *** The FirmwareVolume case *)

(** One turn of [for _, file := range f.Files], on the FV buffer and
    [fileOffset]. *)
Definition placeFile (polarity : byte) (file : File) (fvBuf : list byte)
    (fileOffset : Z) : result (list byte * Z) :=
  let fileBuf := FileBuf file in
  let fileLen := len fileBuf in
  if fileLen =? 0 then Fatal
  else
    let alignedOffset := Align8 fileOffset in
    let alignBase := GetAlignment (FileAttributes (Header file)) in
    '(fvBuf, alignedOffset) <-
      (if negb (alignBase =? 1) then
         let hl := FileHeaderLen file in
         let fileDataOffset := Align (wrap64 (alignedOffset + hl)) alignBase in
         let newOffset := wrap64 (fileDataOffset - hl) in
         let gap := wrap64 (newOffset - alignedOffset) in
         let '(fileDataOffset, newOffset) :=
           if (8 <=? gap) && (gap <? FileHeaderMinLength) then
             let fileDataOffset := Align (wrap64 (fileDataOffset + 1)) alignBase in
             (fileDataOffset, wrap64 (fileDataOffset - hl))
           else (fileDataOffset, newOffset) in
         fvBuf <-
           (if negb (newOffset =? alignedOffset) then
              pfile <- CreatePadFile polarity (wrap64 (newOffset - alignedOffset)) ;;
              fileError (InsertFile polarity fvBuf alignedOffset (FileBuf pfile))
            else Ok fvBuf) ;;
         Ok (fvBuf, newOffset)
       else Ok (fvBuf, alignedOffset)) ;;
    fvBuf <- fileError (InsertFile polarity fvBuf alignedOffset fileBuf) ;;
    Ok (fvBuf, wrap64 (alignedOffset + fileLen)).

Fixpoint placeFiles (polarity : byte) (files : list File) (fvBuf : list byte)
    (fileOffset : Z) : result (list byte) :=
  match files with
  | [] => Ok fvBuf
  | file :: later =>
      '(fvBuf, fileOffset) <- placeFile polarity file fvBuf fileOffset ;;
      placeFiles polarity later fvBuf fileOffset
  end.

(** [if f.Length < newFVLen { ... }]: the FV grew, round its length up to the
    first block size and recount the blocks. *)
Definition resize (v : VolumeFields) (newFVLen : Z) : result VolumeFields :=
  if Length v <? newFVLen then
    match Blocks v with
    | [] => Panic (IndexOutOfRange 0 0)
    | b0 :: bs =>
        if Size b0 =? 0 then Err ErrFirstBlockZeroSize
        else
          let length := Align newFVLen (Size b0) in
          Ok (mkVolumeFields length (Attributes v) (HeaderLen v)
                (mkBlock (wrap32 (length / Size b0)) (Size b0) :: bs)
                (DataOffset v))
    end
  else Ok v.

(** [if f.Length > newFVLen { ... }]: the tail is filled with the erase
    polarity. *)
Definition padTail (polarity : byte) (v : VolumeFields) (fvBuf : list byte)
  : result (list byte) :=
  let newFVLen := len fvBuf in
  if newFVLen <? Length v then
    let extLen := Length v - newFVLen in
    if 2 ^ 63 <=? extLen then Panic (MakeSliceLenOutOfRange extLen)
    else
      let emptyBuf := repeat Byte.x00 (Z.to_nat extLen) in
      Ok (fvBuf ++ Erase emptyBuf polarity)
  else Ok fvBuf.

(** The header patch: length at 32, first block count at 56, checksum at 50.
    [fBuf[:f.HeaderLen]] is taken on a buffer whose spare capacity, left to
    the runtime by [append], is not modelled: past the length it panics. *)
Definition patchHeader (v : VolumeFields) (fBuf : list byte)
  : result (list byte) :=
  fBuf <- PutUint64 fBuf 32 (Length v) ;;
  b0 <- match Blocks v with
        | [] => Panic (IndexOutOfRange 0 0)
        | b0 :: _ => Ok b0
        end ;;
  fBuf <- PutUint32 fBuf 56 (Count b0) ;;
  fBuf <- PutUint16 fBuf 50 0 ;;
  sum <- (if len fBuf <? HeaderLen v then
            Panic (SliceBoundsOutOfRange (HeaderLen v) (len fBuf))
          else Checksum16 (firstn (Z.to_nat (HeaderLen v)) fBuf)) ;;
  let newSum := wrap16 (0 - sum) in
  PutUint16 fBuf 50 newSum.

(** From [newFVLen := uint64(len(f.Buf()))] to [f.SetBuf(fBuf)]. *)
Definition finishVolume (polarity : byte) (f : FirmwareVolume)
    (fvBuf : list byte) : result FirmwareVolume :=
  v <- resize (VolumeOf f) (len fvBuf) ;;
  fvBuf <- padTail polarity v fvBuf ;;
  fvBuf <- patchHeader v fvBuf ;;
  Ok (mkFirmwareVolume v fvBuf (Files f)).

Definition assembleVolume (polarity : byte) (f : FirmwareVolume)
  : result FirmwareVolume :=
  match Files f with
  | [] => Ok f
  | _ :: _ =>
      let v := VolumeOf f in
      let fBuf := VolumeBuf f in
      let fBufLen := len fBuf in
      if Length v <? fBufLen then
        Err (ErrBufferBiggerThanLength (Length v) fBufLen)
      else
        let fileOffset := DataOffset v in
        if negb (DataOffset v =? fBufLen) then
          Err (ErrDataOffsetMismatch fBufLen (DataOffset v))
        else
          fvBuf <- placeFiles polarity (Files f) fBuf fileOffset ;;
          finishVolume polarity f fvBuf
  end.

(** *** The File case *)

Definition setState (h : FileHeader) (state : byte) : FileHeader :=
  mkFileHeader (UUID h) (IntegrityCheck h) (FileType h) (FileAttributes h)
               (FileSize h) state.

Definition assembleFile (polarity : byte) (f : File) : result File :=
  match Sections f with
  | [] =>
      let state := byte.xor Byte.x07 polarity in
      let fBuf := FileBuf f in
      if len fBuf <=? 23 then Panic (IndexOutOfRange 23 (len fBuf))
      else
        Ok (mkFile (setState (Header f) state)
                   (firstn 23 fBuf ++ state :: skipn 24 fBuf) [])
  | _ :: _ =>
      let '(fileData, dLen) := concatAlign4 (map SectionBuf (Sections f)) [] 0 in
      let f := SetSize f (wrap64 (FileHeaderMinLength + dLen)) true in
      let f := mkFile (setState (Header f) (byte.xor Byte.x07 polarity))
                      (FileBuf f) (Sections f) in
      ChecksumAndAssemble f fileData
  end.

(** *** The Section case *)

Definition SetSectionBuf (s : Section) (b : list byte) : Section :=
  mkSection (SecHeader s) b (Encapsulated s).

Definition assembleSection (s : Section) : result Section :=
  match Encapsulated s with
  | [] => Ok s
  | _ :: _ =>
      let '(secData, _) := concatAlign4 (map Buf (Encapsulated s)) [] 0 in
      s <-
        (if SectionType (SecHeader s) =? SectionTypeGUIDDefined then
           match TypeSpecific (SecHeader s) with
           | None => Panic NilDereference
           | Some ts =>
               if negb (Z.land (GUIDAttributes ts)
                               GUIDEDSectionProcessingRequired =? 0) then
                 if bytes_Equal (GUID ts) LZMAGUID then
                   fBuf <- lzmaEncode secData ;; Ok (SetSectionBuf s fBuf)
                 else if bytes_Equal (GUID ts) LZMAX86GUID then
                   fBuf <- lzmaEncodeX86 secData ;; Ok (SetSectionBuf s fBuf)
                 else Err ErrUnknownGUIDDefined
               else Ok s
           end
         else Ok (SetSectionBuf s secData)) ;;
      GenSecHeader s
  end.

(** *** [Assemble.Visit]

    One function per node kind.  On a [FirmwareVolume] the visitor first sets
    the erase polarity; on every node it assembles the children, then the node
    itself.  The polarity is returned with the node, as the package-level
    variable outlives the call. *)
Fixpoint VisitVolume (f : FirmwareVolume) (polarity : byte) {struct f}
  : result (FirmwareVolume * byte) :=
  match f with
  | mkFirmwareVolume v b files =>
      let polarity := GetErasePolarity (Attributes v) in
      '(files, polarity) <- applyChildren VisitFile files polarity ;;
      f <- assembleVolume polarity (mkFirmwareVolume v b files) ;;
      Ok (f, polarity)
  end
with VisitFile (f : File) (polarity : byte) {struct f}
  : result (File * byte) :=
  match f with
  | mkFile h b sections =>
      '(sections, polarity) <- applyChildren VisitSection sections polarity ;;
      f <- assembleFile polarity (mkFile h b sections) ;;
      Ok (f, polarity)
  end
with VisitSection (s : Section) (polarity : byte) {struct s}
  : result (Section * byte) :=
  match s with
  | mkSection h b encapsulated =>
      '(encapsulated, polarity) <- applyChildren Visit encapsulated polarity ;;
      s <- assembleSection (mkSection h b encapsulated) ;;
      Ok (s, polarity)
  end
with Visit (f : Firmware) (polarity : byte) {struct f}
  : result (Firmware * byte) :=
  match f with
  | FwVolume fv => '(fv, polarity) <- VisitVolume fv polarity ;; Ok (FwVolume fv, polarity)
  | FwFile fl => '(fl, polarity) <- VisitFile fl polarity ;; Ok (FwFile fl, polarity)
  | FwSection s => '(s, polarity) <- VisitSection s polarity ;; Ok (FwSection s, polarity)
  end.

End Assembler.

(** *** The layout the placement loop is expected to produce *)

Section Layout.

Context {L : Library}.

(** What may stand between the 8-byte boundary after a file and the next
    file: nothing, or one whole pad file made by [CreatePadFile], at least a
    File header long. *)
Definition PadFile (polarity : byte) (pad : list byte) : Prop :=
  pad = []
  \/ (FileHeaderMinLength <= len pad
      /\ exists pf, CreatePadFile polarity (len pad) = Ok pf /\ FileBuf pf = pad).

(** The size [gap] of that pad for a file of alignment [alignBase] and header
    length [hl] placed after the boundary [aligned]: never in
    [[8, FileHeaderMinLength)]; zero without alignment requirement; otherwise
    the file data starts at [Align (aligned + hl) alignBase], or at the next
    boundary [Align (fileDataOffset + 1) alignBase] when the first choice
    leaves a gap in that range. *)
Definition PadRule (alignBase hl aligned gap : Z) : Prop :=
  ~ (8 <= gap < FileHeaderMinLength)
  /\ if alignBase =? 1 then gap = 0
     else
       let fileDataOffset := Align (aligned + hl) alignBase in
       let tentative := fileDataOffset - hl - aligned in
       aligned + gap + hl
       = if (8 <=? tentative) && (tentative <? FileHeaderMinLength)
         then Align (fileDataOffset + 1) alignBase
         else fileDataOffset.

(** [Placed polarity files offset bytes]: [bytes] is what follows offset
    [offset] of the volume once [files] are placed: for each file a hole of
    fewer than eight erase-polarity bytes up to the 8-byte boundary, the pad,
    and the file's buffer. *)
Inductive Placed (polarity : byte) : list File -> Z -> list byte -> Prop :=
| Placed_nil (offset : Z) : Placed polarity [] offset []
| Placed_cons (file : File) (later : list File) (offset : Z)
      (pad rest : list byte) :
    let aligned := Align8 offset in
    let hole := aligned - offset in
    0 <= hole < 8 ->
    PadFile polarity pad ->
    PadRule (GetAlignment (FileAttributes (Header file))) (FileHeaderLen file)
            aligned (len pad) ->
    Placed polarity later (aligned + len pad + len (FileBuf file)) rest ->
    Placed polarity (file :: later) offset
           (repeat polarity (Z.to_nat hole) ++ pad ++ FileBuf file ++ rest).

End Layout.

End Visitors.

(** ** Flash descriptor regions *)

Module Flash.

(** Modelled from the spec: [Region], a pair (Base, Limit) of 16-bit page
    indices; the type and its methods are exercised by
    [pkg/uefi/region_test.go], which compares the offsets as [uint32]. *)
Record Region : Type := mkRegion { Base : Z; Limit : Z }.

(** Modelled from the spec: [Region.Valid], "valid iff [Limit >= Base] and
    [Limit != 0]". *)
Definition Valid (r : Region) : bool :=
  (Base r <=? Limit r) && negb (Limit r =? 0).

(** Modelled from the spec: [Region.BaseOffset], "[Base << 12]". *)
Definition BaseOffset (r : Region) : Z := wrap32 (Z.shiftl (Base r) 12).

(** Modelled from the spec: [Region.EndOffset], "[(Limit + 1) << 12]". *)
Definition EndOffset (r : Region) : Z := wrap32 (Z.shiftl (Limit r + 1) 12).

(** The rows of [regionTestcases]: input, valid, base, end. *)
Definition regionTestcases : list (Region * bool * Z * Z) :=
  [ (mkRegion 0 0, false, 0, 0x1000);
    (mkRegion 1 0, false, 0x1000, 0x1000);
    (mkRegion 1 1, true, 0x1000, 0x2000);
    (mkRegion 100 200, true, 0x64000, 0xC9000);
    (mkRegion 0x0004 0xFFFF, true, 0x00004000, 0x10000000) ].

(** What [TestRegion_Valid], [TestRegion_BaseOffset] and
    [TestRegion_EndOffset] check on one row. *)
Definition testcasePasses (tc : Region * bool * Z * Z) : bool :=
  let '(r, valid, base, end_) := tc in
  Bool.eqb (Valid r) valid && (BaseOffset r =? base) && (EndOffset r =? end_).

End Flash.

(** ** A reference library

    One [Library] that follows the layouts of section 6 of the specification
    and the UEFI PI attribute encodings, used to run the assembler on concrete
    trees.  The codecs are stand-ins that store their input. *)

Module Reference.

Import Visitors.

(** Bit 11 of the FV attributes, [EFI_FVB2_ERASE_POLARITY]. *)
Definition getErasePolarity (attributes : Z) : byte :=
  if Z.testbit attributes 11 then Byte.xff else Byte.x00.

(** Bits 3 to 5 of the File attributes index the alignment bases. *)
Definition getAlignment (attributes : Z) : Z :=
  nth (Z.to_nat (Z.land (Z.shiftr attributes 3) 7)) AlignmentBases 1.

(** Bit 0 of the File attributes, [FFS_ATTRIB_LARGE_FILE]. *)
Definition isLarge (attributes : Z) : bool := Z.testbit attributes 0.

Definition sized (n : nat) (b : list byte) : list byte :=
  firstn n (b ++ repeat Byte.x00 n).

(** [UUID[16] | IntegrityCheck:u16 | Type:u8 | Attributes:u8 | Size:u24 | State:u8] *)
Definition encodeFileHeader (h : FileHeader) : list byte :=
  sized 16 (UUID h) ++ le_split 2 (IntegrityCheck h) ++ le_split 1 (FileType h)
    ++ le_split 1 (FileAttributes h) ++ le_split 3 (FileSize h) ++ [State h].

Definition sum8 (b : list byte) : Z :=
  fold_right (fun x acc => (byte.unsigned x + acc) mod 256) 0 b.

(** Header checksum over the header with both checksum bytes and the State
    cleared; the data checksum is the fixed [0xAA]. *)
Definition withIntegrityCheck (h : FileHeader) : FileHeader :=
  let blank := mkFileHeader (UUID h) 0 (FileType h) (FileAttributes h)
                            (FileSize h) Byte.x00 in
  let headerSum := (0 - sum8 (encodeFileHeader blank)) mod 256 in
  mkFileHeader (UUID h) (headerSum + 256 * 0xAA) (FileType h)
               (FileAttributes h) (FileSize h) (State h).

(** Pad file: type [0xF0], erase-polarity body, valid state. *)
Definition createPadFile (polarity : byte) (size : Z) : result File :=
  if size <? FileHeaderMinLength then Err (ErrPadFileTooSmall size)
  else
    let h := withIntegrityCheck
               (mkFileHeader (repeat polarity 16) 0 0xF0 0 size
                             (byte.xor Byte.x07 polarity)) in
    Ok (mkFile h (encodeFileHeader h
                    ++ repeat polarity (Z.to_nat (size - FileHeaderMinLength)))
               []).

Definition setSize (f : File) (size : Z) (resizable : bool) : File :=
  let h := Header f in
  mkFile (mkFileHeader (UUID h) (IntegrityCheck h) (FileType h)
                       (FileAttributes h) size (State h))
         (FileBuf f) (Sections f).

Definition checksumAndAssemble (f : File) (fileData : list byte) : result File :=
  let h := withIntegrityCheck (Header f) in
  Ok (mkFile h (encodeFileHeader h ++ fileData) (Sections f)).

(** [Size:u24 | Type:u8], then [GUID[16] | DataOffset:u16 | Attributes:u16]
    for a GUID-defined section. *)
Definition genSecHeader (s : Section) : result Section :=
  let h := SecHeader s in
  let sub := match TypeSpecific h with
             | Some ts => sized 16 (GUID ts) ++ le_split 2 (GUIDDataOffset ts)
                            ++ le_split 2 (GUIDAttributes ts)
             | None => []
             end in
  let size := 4 + len sub + len (SectionBuf s) in
  Ok (mkSection (mkSectionHeader size (SectionType h) (TypeSpecific h))
                (le_split 3 size ++ le_split 1 (SectionType h) ++ sub
                   ++ SectionBuf s)
                (Encapsulated s)).

Definition lzmaGUID : list byte :=
  [Byte.x98; Byte.x58; Byte.x4e; Byte.xee; Byte.x14; Byte.x39; Byte.x59; Byte.x42;
   Byte.x9d; Byte.x6e; Byte.xdc; Byte.x7b; Byte.xd7; Byte.x94; Byte.x03; Byte.xcf].

Definition lzmaX86GUID : list byte :=
  [Byte.xbd; Byte.xe6; Byte.x2a; Byte.xd4; Byte.x52; Byte.x13; Byte.xfb; Byte.x4b;
   Byte.x90; Byte.x9a; Byte.xca; Byte.x72; Byte.xa6; Byte.xea; Byte.xe8; Byte.x89].

Definition store (b : list byte) : result (list byte) := Ok b.

Definition library : Library := {|
  GetErasePolarity := getErasePolarity;
  GetAlignment := getAlignment;
  IsLarge := isLarge;
  CreatePadFile := createPadFile;
  SetSize := setSize;
  ChecksumAndAssemble := checksumAndAssemble;
  GenSecHeader := genSecHeader;
  LZMAGUID := lzmaGUID;
  LZMAX86GUID := lzmaX86GUID;
  lzmaEncode := store;
  lzmaEncodeX86 := store
|}.

End Reference.

(** ** Concrete inputs *)

Module Examples.

(** A 64-byte volume image: zero vector, zero GUID, the given [Length], the
    signature, zero attributes, [HeaderLen = 64], the given
    [ExtHeaderOffset], revision 2 and the terminating block. *)
Definition volumeImage (length extHeaderOffset : Z) : list byte :=
  repeat Byte.x00 16 ++ repeat Byte.x00 16 ++ le_split 8 length ++ Uefi.fvSig
    ++ le_split 4 0 ++ le_split 2 64 ++ le_split 2 0
    ++ le_split 2 extHeaderOffset ++ [Byte.x00; Byte.x02]
    ++ repeat Byte.x00 8.

(** [make([]byte, 33)] *)
Definition zeros33 : slice := tight (repeat Byte.x00 33).

Import Visitors.

(** The FFS2 file-system GUID, as stored. *)
Definition ffs2GUID : list byte :=
  [Byte.x78; Byte.xe5; Byte.x8c; Byte.x8c; Byte.x3d; Byte.x8a; Byte.x1c; Byte.x4f;
   Byte.x99; Byte.x35; Byte.x89; Byte.x61; Byte.x85; Byte.xc3; Byte.x2d; Byte.xd3].

(** The 72-byte header of a volume of [0x100] bytes: fixed header, one block
    of [0x100] bytes and the terminating block. *)
Definition volumeHeader (attributes headerLen : Z) : list byte :=
  repeat Byte.x00 16 ++ ffs2GUID ++ le_split 8 0x100 ++ Uefi.fvSig
    ++ le_split 4 attributes ++ le_split 2 headerLen ++ le_split 2 0
    ++ le_split 2 0 ++ [Byte.x00; Byte.x02]
    ++ le_split 4 1 ++ le_split 4 0x100 ++ repeat Byte.x00 8.

(** A volume that holds only its header, as the assembler expects it. *)
Definition volume (attributes headerLen : Z) (files : list File)
  : FirmwareVolume :=
  mkFirmwareVolume
    (mkVolumeFields 0x100 attributes headerLen [mkBlock 1 0x100] 72)
    (volumeHeader attributes headerLen) files.

(** A file without sections: header and body in its buffer. *)
Definition rawFile (attributes : Z) (state : byte) (body : list byte) : File :=
  let h := mkFileHeader (repeat Byte.x11 16) 0 0x01 attributes
                        (24 + len body) state in
  mkFile h (Reference.encodeFileHeader h ++ body) [].

(** Attributes of a volume whose erased cells read [0xFF], and of one whose
    erased cells read [0x00]. *)
Definition polarityFF : Z := 0x800.
Definition polarity00 : Z := 0.

(** One raw file in a volume whose header length field is 72, the size of
    its header, and in one whose field is 48. *)
Definition volume72 : FirmwareVolume :=
  volume polarityFF 72 [rawFile 0 Byte.xf8 [Byte.xaa; Byte.xbb]].
Definition volume48 : FirmwareVolume :=
  volume polarityFF 48 [rawFile 0 Byte.xf8 [Byte.xaa; Byte.xbb]].

(** Two files for the placement loop: a bare header, then a file that asks
    for 16-byte alignment of its data. *)
Definition alignedFiles : list File :=
  [rawFile 0 Byte.xf8 []; rawFile 0x08 Byte.xf8 [Byte.xaa; Byte.xbb]].

(** A volume whose buffer is its 72-byte header while [DataOffset] says 64. *)
Definition volumeMismatch : FirmwareVolume :=
  mkFirmwareVolume
    (mkVolumeFields 0x100 polarityFF 72 [mkBlock 1 0x100] 64)
    (volumeHeader polarityFF 72)
    [rawFile 0 Byte.xf8 [Byte.xaa; Byte.xbb]].

(** A volume of erase polarity [0xFF] with two files: the first holds, in a
    firmware-volume-image section, a volume of erase polarity [0x00]; the
    second is a raw file. *)
Definition innerVolume : FirmwareVolume := volume polarity00 72 [].

Definition imageSection : Section :=
  mkSection (mkSectionHeader 0 0x17 None) [] [FwVolume innerVolume].

Definition imageFile : File :=
  mkFile (mkFileHeader (repeat Byte.x22 16) 0 0x0B 0 0 Byte.xf8) []
         [imageSection].

Definition nestedVolume : FirmwareVolume :=
  volume polarityFF 72 [imageFile; rawFile 0 Byte.xf8 [Byte.xaa; Byte.xbb]].

End Examples.

(** ** Views of a slice used in the statements about the parser *)

(** The four bytes that [data[offset:offset+4]] yields. *)
Definition windowAt (data : slice) (offset : Z) : list byte :=
  firstn 4 (skipn (Z.to_nat offset) (elems data ++ spare data)).

(** The [i]-th entry of the block map, eight bytes at [56 + 8 * i]. *)
Definition blockAt (data : slice) (i : nat) : Uefi.Block :=
  Uefi.decodeBlock (firstn 8 (skipn (56 + 8 * i) (elems data))).

(** The [(0, 0)] entry that ends the block map. *)
Definition isTerminator (b : Uefi.Block) : bool :=
  (Uefi.Count b =? 0) && (Uefi.Size b =? 0).

(** ** Concrete inputs for the parser *)

Module Images.

(** A 256-byte volume: the 72-byte header with one block of [0x100] bytes and
    the terminator, then erased bytes. *)
Definition image256 : slice :=
  tight (Examples.volumeHeader Examples.polarityFF 72 ++ repeat Byte.xff 184).

(** The same volume with [ExtHeaderOffset = 72] and, at offset 72, an
    extended header: a name of sixteen [0x33] bytes and size 20. *)
Definition imageExt : slice :=
  tight (firstn 52 (Examples.volumeHeader Examples.polarityFF 72)
           ++ le_split 2 72
           ++ skipn 54 (Examples.volumeHeader Examples.polarityFF 72)
           ++ repeat Byte.x33 16 ++ le_split 4 20 ++ repeat Byte.xff 164).

(** Behind 32 erased bytes, a 64-byte volume image. *)
Definition padded : slice :=
  tight (repeat Byte.xff 32 ++ Examples.volumeImage 64 0).

(** 64 erased bytes: no signature, no terminating block. *)
Definition erased64 : slice := tight (repeat Byte.xff 64).

(** 40 bytes with the signature at offset 32. *)
Definition signatureAt32 : slice :=
  tight (repeat Byte.x00 32 ++ Uefi.fvSig ++ repeat Byte.x00 4).

(** A stand-in for [uuid.UUID.String]. *)
Definition noName (guid : list byte) : string := EmptyString.

End Images.

(** ** The BIOSRegion and the FlashImage case of [Assemble.Visit]

    Both cases work on the buffers of children that are already assembled. *)

Module Regions.

Import Visitors.

(** A [BIOSRegion]: its declared [Length], its buffer, and the [Value] of
    each of its [Elements]. *)
Record BIOSRegion : Type := mkBIOSRegion {
  RegionLength : Z;
  RegionBuf : list byte;
  Elements : list Firmware
}.

(** The loop [for _, e := range f.Elements]:
    [copy(fBuf[offset:offset+uint64(len(ebuf))], ebuf)], then
    [offset += uint64(len(ebuf))].  [fBuf] comes from [make]: its capacity
    is its length.  [copy] moves as many bytes as the shorter of its
    arguments holds. *)
Fixpoint copyElements (elements : list Firmware) (fBuf : list byte)
    (offset : Z) : result (list byte) :=
  match elements with
  | [] => Ok fBuf
  | e :: later =>
      let ebuf := Buf e in
      let high := wrap64 (offset + len ebuf) in
      if (high <? offset) || (len fBuf <? high) then
        Panic (SliceBoundsOutOfRange high (len fBuf))
      else
        let n := Z.min (high - offset) (len ebuf) in
        let fBuf := firstn (Z.to_nat offset) fBuf ++ firstn (Z.to_nat n) ebuf
                      ++ skipn (Z.to_nat (offset + n)) fBuf in
        copyElements later fBuf (wrap64 (offset + len ebuf))
  end.

Section BIOSRegionCase.

Context {L : Library}.

(** [BIOSRegion.FirstFV], from [pkg/uefi]. *)
Variable FirstFV : BIOSRegion -> result FirmwareVolume.

(** The BIOSRegion case; the erase polarity it leaves in the package-level
    variable is returned with the node. *)
Definition assembleBIOSRegion (f : BIOSRegion) : result (BIOSRegion * byte) :=
  if 2 ^ 63 <=? RegionLength f then
    Panic (MakeSliceLenOutOfRange (RegionLength f))
  else
    let fBuf := repeat Byte.x00 (Z.to_nat (RegionLength f)) in
    firstFV <- FirstFV f ;;
    let polarity := GetErasePolarity (Attributes (VolumeOf firstFV)) in
    let fBuf := Erase fBuf polarity in
    fBuf <- copyElements (Elements f) fBuf 0 ;;
    Ok (mkBIOSRegion (RegionLength f) fBuf (Elements f), polarity).

End BIOSRegionCase.

(** The errors of the FlashImage case. *)
Inductive imageError : Type :=
| ErrNoBIOSRegion (r : Flash.Region)
| ErrBIOSNil
| ErrNoME
| ErrNoGBE
| ErrNoPD.

(** A [FlashImage]: the buffer of the IFD, the four regions the IFD
    declares, and for each region the buffer of its node, [None] for a nil
    node. *)
Record FlashImage : Type := mkFlashImage {
  IFDBuf : list byte;
  RegionBIOS : Flash.Region;
  RegionME : Flash.Region;
  RegionGBE : Flash.Region;
  RegionPD : Flash.Region;
  BIOS : option (list byte);
  ME : option (list byte);
  GBE : option (list byte);
  PD : option (list byte)
}.

(** The local [type region struct { P *uefi.Region; buf []byte }]. *)
Definition region : Type := (Flash.Region * list byte)%type.

(** [less] of the [sort.Slice] call. *)
Definition lessBase (a b : region) : bool :=
  Flash.Base (fst a) <? Flash.Base (fst b).

(** [sort.Slice] on the at most four regions is the insertion sort of the
    sort package: each element moves left while it is less than its left
    neighbour.  The sorted prefix is kept reversed, its last element
    first. *)
Fixpoint insertBack (x : region) (prefix : list region) : list region :=
  match prefix with
  | [] => [x]
  | y :: before => if lessBase x y then y :: insertBack x before
                   else x :: y :: before
  end.

Definition sortSlice (regions : list region) : list region :=
  rev (fold_left (fun prefix x => insertBack x prefix) regions []).

(** [if f.IFD.Region.X.Valid() { if f.X == nil { return err }; append }] *)
Definition appendRegion (r : Flash.Region) (node : option (list byte))
    (missing : imageError) (regions : list region)
  : imageError + list region :=
  if Flash.Valid r then
    match node with
    | None => inl missing
    | Some buf => inr (regions ++ [(r, buf)])
    end
  else inr regions.

(** The FlashImage case: the buffer it sets, or its error. *)
Definition assembleFlashImage (f : FlashImage) : imageError + list byte :=
  if negb (Flash.Valid (RegionBIOS f)) then inl (ErrNoBIOSRegion (RegionBIOS f))
  else
    match BIOS f with
    | None => inl ErrBIOSNil
    | Some biosbuf =>
        let regions := [(RegionBIOS f, biosbuf)] in
        match appendRegion (RegionME f) (ME f) ErrNoME regions with
        | inl e => inl e
        | inr regions =>
            match appendRegion (RegionGBE f) (GBE f) ErrNoGBE regions with
            | inl e => inl e
            | inr regions =>
                match appendRegion (RegionPD f) (PD f) ErrNoPD regions with
                | inl e => inl e
                | inr regions =>
                    inr (IFDBuf f ++ concat (map snd (sortSlice regions)))
                end
            end
        end
    end.

(** The regions that go into the image: a region the IFD declares valid,
    with the buffer of its node. *)
Definition declared (r : Flash.Region) (node : option (list byte))
  : list region :=
  if Flash.Valid r then
    match node with
    | Some buf => [(r, buf)]
    | None => []
    end
  else [].

Definition declaredRegions (f : FlashImage) : list region :=
  declared (RegionBIOS f) (BIOS f) ++ declared (RegionME f) (ME f)
    ++ declared (RegionGBE f) (GBE f) ++ declared (RegionPD f) (PD f).

(** The order of the regions in the image, and its converse, the order of
    the reversed prefix of the sort. *)
Definition ascending (a b : region) : Prop :=
  Flash.Base (fst a) <= Flash.Base (fst b).

Definition descending (a b : region) : Prop :=
  Flash.Base (fst b) <= Flash.Base (fst a).

(** BIOS at pages 16 to 31, ME at pages 1 to 15, an invalid GBE entry that
    still has a node, no PD. *)
Definition sampleImage : FlashImage :=
  mkFlashImage (repeat Byte.x5a 4)
    (Flash.mkRegion 16 31) (Flash.mkRegion 1 15)
    (Flash.mkRegion 0 0) (Flash.mkRegion 0x7FF 0)
    (Some [Byte.xb1; Byte.xb2]) (Some [Byte.xe1]) (Some [Byte.x99]) None.

(** A BIOS region of 8 bytes with a volume of 3 bytes and 2 raw bytes. *)
Definition sampleRegion : BIOSRegion :=
  mkBIOSRegion 8 []
    [FwVolume (mkFirmwareVolume
                 (mkVolumeFields 3 Examples.polarityFF 0 [] 0)
                 [Byte.x01; Byte.x02; Byte.x03] []);
     FwSection (mkSection (mkSectionHeader 0 0x19 None)
                          [Byte.x0a; Byte.x0b] [])].

(** A stand-in for [FirstFV]: the first element that is a volume. *)
Fixpoint firstVolume (elements : list Firmware) : result FirmwareVolume :=
  match elements with
  | [] => Err ErrHelper
  | FwVolume fv :: _ => Ok fv
  | _ :: later => firstVolume later
  end.

End Regions.

(** ** Concrete inputs for the assembler *)

Module Samples.

Import Visitors.

(** A raw leaf section of one byte. *)
Definition leaf : Section :=
  mkSection (mkSectionHeader 0 0x19 None) [Byte.x0a] [].

(** A GUID-defined section that requires processing under a GUID that is
    neither of the two LZMA ones, with one child. *)
Definition unknownSection : Section :=
  mkSection
    (mkSectionHeader 0 SectionTypeGUIDDefined
       (Some (mkSectionGUIDDefined (repeat Byte.x44 16) 24 1)))
    [] [FwSection leaf].

(** A BIOS region of 4 bytes with the 5 bytes of elements of
    [Regions.sampleRegion]. *)
Definition smallRegion : Regions.BIOSRegion :=
  Regions.mkBIOSRegion 4 [] (Regions.Elements Regions.sampleRegion).

(** [FirstFV] as the first element that is a volume. *)
Definition firstFV (f : Regions.BIOSRegion) : result FirmwareVolume :=
  Regions.firstVolume (Regions.Elements f).

End Samples.

(** * Properties *)

(** ** The definitions on small inputs *)

Example Align_5_4 : Visitors.Align 5 4 = 8.
Proof. reflexivity. Qed.

Example Align8_72 : Visitors.Align8 72 = 72.
Proof. reflexivity. Qed.

Example Align_97_16 : Visitors.Align 97 16 = 112.
Proof. reflexivity. Qed.

Example Checksum16_two_words :
  Visitors.Checksum16 [Byte.x01; Byte.x00; Byte.xff; Byte.xff] = Ok 0.
Proof. reflexivity. Qed.

Example Checksum16_odd :
  Visitors.Checksum16 [Byte.x01; Byte.x00; Byte.xff]
  = Err (ErrOddChecksumLength 3).
Proof. reflexivity. Qed.

(** The signature of a volume image sits at offset 40: the volume starts at
    offset 0. *)
Example FindFirmwareVolumeOffset_at_0 :
  Uefi.FindFirmwareVolumeOffset (tight (Examples.volumeImage 64 0)) = Ok 0.
Proof. vm_compute. reflexivity. Qed.

(** Behind 32 bytes of padding the signature is at offset 72. *)
Example FindFirmwareVolumeOffset_at_32 :
  Uefi.FindFirmwareVolumeOffset
    (tight (repeat Byte.xff 32 ++ Examples.volumeImage 64 0)) = Ok 32.
Proof. vm_compute. reflexivity. Qed.

Example FindFirmwareVolumeOffset_none :
  Uefi.FindFirmwareVolumeOffset (tight (repeat Byte.x00 64)) = Ok (-1).
Proof. vm_compute. reflexivity. Qed.

Example NewFirmwareVolume_minimal :
  forall UUIDString,
    exists fv,
      Uefi.NewFirmwareVolume UUIDString (tight (Examples.volumeImage 64 0))
      = Ok fv
      /\ Uefi.Length (Uefi.FixedHeader fv) = 64
      /\ Uefi.HeaderLen (Uefi.FixedHeader fv) = 64
      /\ Uefi.Blocks fv = []
      /\ Uefi.ExtHeader fv = Uefi.zeroExtHeader
      /\ slen (Uefi.buf fv) = 64.
Proof.
  intros. eexists. split; [ vm_compute; reflexivity | ]. repeat split.
Qed.

Example NewFirmwareVolume_too_small :
  forall UUIDString,
    Uefi.NewFirmwareVolume UUIDString (tight (repeat Byte.x00 63))
    = Err (ErrFVTooSmall 64 63).
Proof. intros. vm_compute. reflexivity. Qed.

(** The placement loop on [alignedFiles]: the bare header at 72, and, for the
    file whose data must be 16-byte aligned, a tentative gap of 8 bytes at 96
    that is widened to a 24-byte pad file (type [0xF0] at 96 + 18), the file
    following at 120 with its data at 144. *)
Example placeFiles_alignedFiles :
  exists fvBuf,
    Visitors.placeFiles (L := Reference.library) Byte.xff Examples.alignedFiles
      (Examples.volumeHeader Examples.polarityFF 72) 72 = Ok fvBuf
    /\ len fvBuf = 146
    /\ nth (96 + 18) fvBuf Byte.x00 = Byte.xf0
    /\ firstn 26 (skipn 120 fvBuf)
       = Visitors.FileBuf
           (Examples.rawFile 0x08 Byte.xf8 [Byte.xaa; Byte.xbb]).
Proof.
  eexists. split; [ vm_compute; reflexivity | ]. repeat split.
Qed.

(** ** [FindFirmwareVolumeOffset] *)

(** C5 (code defect): on a 33-byte slice without spare capacity and without
    signature the scan does not return -1: the loop admits offset 32 because
    [32 < 33], and the slice expression [data[32:36]] panics. *)
Theorem FindFirmwareVolumeOffset_panics_on_33_bytes :
  Uefi.FindFirmwareVolumeOffset Examples.zeros33
  = Panic (SliceBoundsOutOfRange 36 33).
Proof. vm_compute. reflexivity. Qed.

(** The offsets the loop visits are the multiples of eight from 32 up to,
    and excluding, the length. *)
Lemma scanOffsets_spec (n o : Z) :
  In o (Uefi.scanOffsets n) <-> (32 <= o < n /\ (o - 32) mod 8 = 0).
Proof.
  unfold Uefi.scanOffsets. rewrite in_map_iff. split.
  - intros [k [<- Hk]]. apply in_seq in Hk.
    assert (Hk' : Z.of_nat k < (n - 32 + 7) / 8) by lia.
    split; [ | replace (32 + 8 * Z.of_nat k - 32) with (Z.of_nat k * 8) by ring;
               apply Z.mod_mul; lia ].
    Z.div_mod_to_equations. lia.
  - intros [Ho Hm]. exists (Z.to_nat ((o - 32) / 8)). split.
    + rewrite Z2Nat.id by (apply Z.div_pos; lia).
      Z.div_mod_to_equations. lia.
    + apply in_seq. split; [ lia | ].
      cbn [plus]. apply Z2Nat.inj_lt.
      * apply Z.div_pos; lia.
      * apply Z.div_pos; lia.
      * Z.div_mod_to_equations. lia.
Qed.

(** A slice shorter than 32 bytes is answered with -1 without a scan. *)
Lemma FindFirmwareVolumeOffset_short (data : slice) :
  slen data < 32 -> Uefi.FindFirmwareVolumeOffset data = Ok (-1).
Proof.
  intros H. unfold Uefi.FindFirmwareVolumeOffset.
  apply Z.ltb_lt in H. now rewrite H.
Qed.

(** The scan returns, without panic, when four bytes are in the capacity at
    every offset it visits. *)
Lemma scanSignature_returns (data : slice) (offsets : list Z) :
  (forall o, In o offsets -> 0 <= o /\ o + 4 <= scap data) ->
  exists r, Uefi.scanSignature data offsets = Ok r.
Proof.
  induction offsets as [ | o later IH ]; intros Hcap; cbn [Uefi.scanSignature].
  - eauto.
  - destruct (Hcap o (or_introl eq_refl)) as [Ho Hc].
    unfold reslice.
    replace (o + 4 <? o) with false by (symmetry; apply Z.ltb_ge; lia).
    replace (scap data <? o + 4) with false by (symmetry; apply Z.ltb_ge; lia).
    cbn [orb bind elems].
    match goal with |- context [if ?c then _ else _] => destruct c end.
    + eauto.
    + apply IH. intros o' Ho'. apply Hcap. now right.
Qed.

(** ** [NewFirmwareVolume] *)

(** C6 (code defect): a 64-byte image that declares [Length = 65] passes every
    read, and the final [data[:fv.Length]] panics instead of returning an
    error. *)
Theorem NewFirmwareVolume_panics_on_long_Length :
  forall UUIDString,
    Uefi.NewFirmwareVolume UUIDString (tight (Examples.volumeImage 65 0))
    = Panic (SliceBoundsOutOfRange 65 64).
Proof. intros. vm_compute. reflexivity. Qed.

(** C7 (code defect): with [Length = 16 < 20] the unsigned subtraction
    [Length - 20] wraps, the guard holds for every non-zero
    [ExtHeaderOffset], and the extended header is read: at offset 60 the read
    runs past the buffer and the parse fails on that account; at offset 40
    the twenty bytes starting at the signature are taken as the extended
    header. *)
Theorem NewFirmwareVolume_reads_ext_header_when_Length_below_20 :
  forall UUIDString,
    Uefi.NewFirmwareVolume UUIDString (tight (Examples.volumeImage 16 60))
    = Err (ErrExtHeader ErrUnexpectedEOF)
    /\ exists fv,
         Uefi.NewFirmwareVolume UUIDString (tight (Examples.volumeImage 16 40))
         = Ok fv
         /\ firstn 4 (Uefi.FVName (Uefi.ExtHeader fv)) = Uefi.fvSig
         /\ Uefi.ExtHeader fv <> Uefi.zeroExtHeader.
Proof.
  intros. split.
  - vm_compute. reflexivity.
  - eexists. split; [ vm_compute; reflexivity | ].
    split; [ reflexivity | discriminate ].
Qed.

(** ** Regions *)

(** C9: on 16-bit fields, [Valid] holds exactly when [Limit >= Base] and
    [Limit <> 0], [BaseOffset] is [Base << 12] and [EndOffset] is
    [(Limit + 1) << 12]; the five rows of the test table hold. *)
Theorem Region_valid_and_offsets :
  forall r : Flash.Region,
    0 <= Flash.Base r < 2 ^ 16 ->
    0 <= Flash.Limit r < 2 ^ 16 ->
    (Flash.Valid r = true <-> (Flash.Limit r >= Flash.Base r /\ Flash.Limit r <> 0))
    /\ Flash.BaseOffset r = Z.shiftl (Flash.Base r) 12
    /\ Flash.EndOffset r = Z.shiftl (Flash.Limit r + 1) 12
    /\ Flash.Valid (Flash.mkRegion 0 0) = false
    /\ Flash.Valid (Flash.mkRegion 1 0) = false
    /\ (Flash.Valid (Flash.mkRegion 1 1) = true
        /\ Flash.BaseOffset (Flash.mkRegion 1 1) = 0x1000
        /\ Flash.EndOffset (Flash.mkRegion 1 1) = 0x2000)
    /\ (Flash.Valid (Flash.mkRegion 100 200) = true
        /\ Flash.BaseOffset (Flash.mkRegion 100 200) = 0x64000
        /\ Flash.EndOffset (Flash.mkRegion 100 200) = 0xC9000)
    /\ (Flash.Valid (Flash.mkRegion 4 0xFFFF) = true
        /\ Flash.BaseOffset (Flash.mkRegion 4 0xFFFF) = 0x4000
        /\ Flash.EndOffset (Flash.mkRegion 4 0xFFFF) = 0x10000000)
    /\ forallb Flash.testcasePasses Flash.regionTestcases = true.
Proof.
  intros [base limit]; cbn [Flash.Base Flash.Limit]; intros Hb Hl.
  split; [ | split; [ | split; [ | repeat split ] ] ].
  - unfold Flash.Valid; cbn [Flash.Base Flash.Limit].
    rewrite andb_true_iff, negb_true_iff, Z.leb_le, Z.eqb_neq. lia.
  - unfold Flash.BaseOffset, wrap32; cbn [Flash.Base].
    rewrite Z.shiftl_mul_pow2 by lia. apply Z.mod_small. lia.
  - unfold Flash.EndOffset, wrap32; cbn [Flash.Limit].
    rewrite Z.shiftl_mul_pow2 by lia. apply Z.mod_small. lia.
Qed.

Lemma Region_valid_and_offsets_witness :
  0 <= 100 < 2 ^ 16
  /\ 0 <= 200 < 2 ^ 16
  /\ (Flash.Valid (Flash.mkRegion 100 200) = true
      <-> (200 >= 100 /\ 200 <> 0))
  /\ Flash.BaseOffset (Flash.mkRegion 100 200) = Z.shiftl 100 12
  /\ Flash.EndOffset (Flash.mkRegion 100 200) = Z.shiftl (200 + 1) 12.
Proof.
  assert (Hb : 0 <= 100 < 2 ^ 16) by lia.
  assert (Hl : 0 <= 200 < 2 ^ 16) by lia.
  destruct (Region_valid_and_offsets (Flash.mkRegion 100 200) Hb Hl)
    as [Hvalid [Hbase [Hend _]]].
  split; [ exact Hb | ]. split; [ exact Hl | ].
  split; [ exact Hvalid | ]. split; [ exact Hbase | exact Hend ].
Defined.

(** ** Arithmetic of the kernels *)

Section Kernels.

Import Visitors.

Lemma len_app {A : Type} (a b : list A) : len (a ++ b) = len a + len b.
Proof. unfold len. rewrite length_app. lia. Qed.

Lemma len_repeat {A : Type} (x : A) (n : nat) : len (repeat x n) = Z.of_nat n.
Proof. unfold len. now rewrite repeat_length. Qed.

Lemma len_nonneg {A : Type} (l : list A) : 0 <= len l.
Proof. unfold len. lia. Qed.

Lemma wrap64_range (z : Z) : 0 <= wrap64 z < 2 ^ 64.
Proof. unfold wrap64. apply Z.mod_pos_bound. reflexivity. Qed.

Lemma wrap64_small (z : Z) : 0 <= z < 2 ^ 64 -> wrap64 z = z.
Proof. unfold wrap64. intros. now apply Z.mod_small. Qed.

(** Without wrap-around [Align] is the least multiple of the base at or
    above the value. *)
Lemma Align_least_multiple (val base : Z) :
  0 <= val -> 0 < base -> val + base <= 2 ^ 64 ->
  val <= Align val base < val + base
  /\ Align val base mod base = 0
  /\ forall y, val <= y -> y mod base = 0 -> Align val base <= y.
Proof.
  intros Hv Hb Hs. unfold Align.
  assert (Hq : val <= (val + base - 1) / base * base < val + base).
  { pose proof (Z.div_mod (val + base - 1) base ltac:(lia)) as E.
    pose proof (Z.mod_pos_bound (val + base - 1) base Hb) as B.
    nia. }
  rewrite wrap64_small by lia.
  split; [ exact Hq | split ].
  - apply Z.mod_mul. lia.
  - intros y Hy Hm.
    apply Z.mod_divide in Hm; [ | lia ]. destruct Hm as [k ->].
    assert (Hk : (val + base - 1) / base < k + 1).
    { apply Z.div_lt_upper_bound; [ lia | ]. nia. }
    nia.
Qed.

(** The number of zero bytes the concatenation loop appends: the distance to
    the next multiple of four, also when the 64-bit counter wraps. *)
Lemma Align4_count (d : Z) :
  0 <= d < 2 ^ 64 -> wrap64 (Align4 d - d) = (- d) mod 4.
Proof.
  intros Hd. unfold Align4, Align, wrap64.
  change (2 ^ 64) with 18446744073709551616 in *.
  Z.div_mod_to_equations. lia.
Qed.

Lemma Align4_wrap (d : Z) :
  0 <= d < 2 ^ 64 -> Align4 d = wrap64 (d + (- d) mod 4).
Proof.
  intros Hd. unfold Align4, Align, wrap64.
  change (2 ^ 64) with 18446744073709551616 in *.
  Z.div_mod_to_equations. lia.
Qed.

Lemma neg_wrap64_mod4 (z : Z) : (- wrap64 z) mod 4 = (- z) mod 4.
Proof.
  unfold wrap64. change (2 ^ 64) with 18446744073709551616.
  Z.div_mod_to_equations. lia.
Qed.

End Kernels.

(** ** Concatenation of sections *)

Section Concatenation.

Import Visitors.

Lemma concatAlign4_app (pre post : list (list byte)) :
  forall data dLen,
    concatAlign4 (pre ++ post) data dLen
    = concatAlign4 post (fst (concatAlign4 pre data dLen))
                        (snd (concatAlign4 pre data dLen)).
Proof.
  induction pre as [ | c pre IH ]; intros data dLen; cbn [app concatAlign4 fst snd].
  - reflexivity.
  - apply IH.
Qed.

(** The counter is the length of the buffer, modulo [2 ^ 64]. *)
Lemma concatAlign4_counter (children : list (list byte)) :
  forall data dLen,
    dLen = wrap64 (len data) ->
    snd (concatAlign4 children data dLen)
    = wrap64 (len (fst (concatAlign4 children data dLen))).
Proof.
  induction children as [ | c children IH ]; intros data dLen HdLen;
    cbn [concatAlign4 fst snd].
  - exact HdLen.
  - apply IH.
    pose proof (wrap64_range (len data)) as R.
    rewrite Align4_count, Align4_wrap by (subst; exact R).
    subst dLen. rewrite neg_wrap64_mod4.
    rewrite !len_app, len_repeat.
    pose proof (Z.mod_pos_bound (- len data) 4 eq_refl) as B.
    rewrite Z2Nat.id by lia.
    unfold wrap64. change (2 ^ 64) with 18446744073709551616 in *.
    Z.div_mod_to_equations. lia.
Qed.

Lemma concatAlign4_extends (children : list (list byte)) :
  forall data dLen,
    exists rest, fst (concatAlign4 children data dLen) = data ++ rest.
Proof.
  induction children as [ | c children IH ]; intros data dLen;
    cbn [concatAlign4 fst].
  - exists []. now rewrite app_nil_r.
  - destruct (IH ((data ++ repeat Byte.x00
                      (Z.to_nat (wrap64 (Align4 dLen - dLen)))) ++ c)
                 (wrap64 (Align4 dLen + len c))) as [rest E].
    rewrite E. rewrite <- !app_assoc. eauto.
Qed.

(** C8: in the buffer the concatenation loop builds, every child [c] sits
    right after the children before it and a hole of fewer than four bytes,
    all [0x00], that brings its offset to a multiple of four; no erase
    polarity enters the loop. *)
Theorem concatAlign4_children_aligned_zero_filled :
  forall (pre : list (list byte)) (c : list byte) (post : list (list byte)),
    let before := fst (concatAlign4 pre [] 0) in
    let out := fst (concatAlign4 (pre ++ c :: post) [] 0) in
    let hole := (- len before) mod 4 in
    0 <= hole < 4
    /\ (len before + hole) mod 4 = 0
    /\ exists rest,
         out = before ++ repeat Byte.x00 (Z.to_nat hole) ++ c ++ rest.
Proof.
  intros pre c post before out hole.
  pose proof (Z.mod_pos_bound (- len before) 4 eq_refl) as B.
  split; [ exact B | split ].
  - subst hole. Z.div_mod_to_equations. lia.
  - subst out. rewrite concatAlign4_app. fold before.
    rewrite (concatAlign4_counter pre [] 0) by reflexivity. fold before.
    cbn [concatAlign4].
    rewrite Align4_count by apply wrap64_range.
    rewrite neg_wrap64_mod4. fold hole.
    match goal with
    | |- context [concatAlign4 post ?d ?n] =>
        destruct (concatAlign4_extends post d n) as [rest E]
    end.
    exists rest. rewrite E. now rewrite <- !app_assoc.
Qed.

Section Callers.

Context {L : Library}.

(** The File case hands the concatenation of its sections' buffers to
    [ChecksumAndAssemble]. *)
Lemma assembleFile_concatenates (polarity : byte) (f : File) :
  Sections f <> [] ->
  exists f',
    assembleFile polarity f
    = ChecksumAndAssemble f'
        (fst (concatAlign4 (map SectionBuf (Sections f)) [] 0)).
Proof.
  intros Hs. unfold assembleFile.
  destruct (Sections f) as [ | s ss ] eqn:E; [ congruence | ].
  destruct (concatAlign4 (map SectionBuf (s :: ss)) [] 0) as [fileData dLen].
  eexists. reflexivity.
Qed.

(** The Section case stores the concatenation of its encapsulated children
    as the payload of a section that is not GUID-defined. *)
Lemma assembleSection_concatenates (s : Section) :
  Encapsulated s <> [] ->
  SectionType (SecHeader s) <> SectionTypeGUIDDefined ->
  assembleSection s
  = GenSecHeader
      (SetSectionBuf s (fst (concatAlign4 (map Buf (Encapsulated s)) [] 0))).
Proof.
  intros He Ht. unfold assembleSection.
  destruct (Encapsulated s) as [ | e es ] eqn:E; [ congruence | ].
  destruct (concatAlign4 (map Buf (e :: es)) [] 0) as [secData dLen].
  apply Z.eqb_neq in Ht. rewrite Ht. reflexivity.
Qed.

End Callers.

End Concatenation.

(** ** The header checksum *)

Section HeaderChecksum.

Import Visitors.

Lemma wrap16_range (z : Z) : 0 <= wrap16 z < 2 ^ 16.
Proof. unfold wrap16. apply Z.mod_pos_bound. reflexivity. Qed.

Lemma sum16_range (b : list byte) : 0 <= sum16 b < 2 ^ 16.
Proof.
  destruct b as [ | lo [ | hi rest ] ]; cbn [sum16];
    [ lia | lia | apply wrap16_range ].
Qed.

(** A prefix of whole words can be summed on its own. *)
Lemma sum16_app (n : nat) :
  forall a b : list byte,
    length a = (2 * n)%nat ->
    sum16 (a ++ b) = wrap16 (sum16 a + sum16 b).
Proof.
  induction n as [ | n IH ]; intros a b Hlen.
  - destruct a; [ | discriminate ]. cbn [app sum16].
    pose proof (sum16_range b). unfold wrap16. rewrite Z.mod_small; lia.
  - destruct a as [ | lo [ | hi a ] ]; cbn [length] in Hlen; try lia.
    cbn [app sum16]. rewrite (IH a b) by lia.
    unfold wrap16. generalize (le_combine [lo; hi]) (sum16 a) (sum16 b).
    intros w x y. change (2 ^ 16) with 65536.
    Z.div_mod_to_equations. lia.
Qed.

Lemma putLE_Ok (n : nat) (b b' : list byte) (off v : Z) :
  0 <= off ->
  putLE n b off v = Ok b' ->
  off + Z.of_nat n <= len b
  /\ b' = firstn (Z.to_nat off) b ++ le_split n v ++ skipn (Z.to_nat off + n) b.
Proof.
  intros Hoff. unfold putLE.
  destruct (len b <? off) eqn:E1; [ discriminate | ].
  destruct (len b - off <? Z.of_nat n) eqn:E2; [ discriminate | ].
  apply Z.ltb_ge in E1, E2. intros [= <-]. split; [ lia | reflexivity ].
Qed.

Lemma putLE_length (n : nat) (b b' : list byte) (off v : Z) :
  0 <= off -> putLE n b off v = Ok b' -> length b' = length b.
Proof.
  intros Hoff H. apply putLE_Ok in H; [ | exact Hoff ]. destruct H as [Hle ->].
  unfold len in Hle.
  rewrite !length_app, length_firstn, length_skipn, length_le_split. lia.
Qed.

(** Storing the negated sum in a word of the summed range brings the sum to
    zero. *)
Lemma sum16_patched (p q : list byte) (k : nat) :
  length p = (2 * k)%nat ->
  let sum := sum16 (p ++ le_split 2 0 ++ q) in
  sum16 (p ++ le_split 2 (wrap16 (0 - sum)) ++ q) = 0.
Proof.
  intros Hp sum.
  assert (Hs : forall w, sum16 (p ++ le_split 2 w ++ q)
                         = wrap16 (sum16 p + wrap16 (wrap16 w + sum16 q))).
  { intros w. rewrite (sum16_app k) by exact Hp. f_equal. f_equal.
    change (le_split 2 w) with [byte.of_Z w; byte.of_Z (Z.shiftr w 8)].
    cbn [app sum16]. f_equal. f_equal.
    change [byte.of_Z w; byte.of_Z (Z.shiftr w 8)] with (le_split 2 w).
    rewrite le_combine_split. reflexivity. }
  subst sum. rewrite !Hs.
  generalize (sum16 p) (sum16 q). intros x y.
  unfold wrap16. change (2 ^ 16) with 65536.
  Z.div_mod_to_equations. lia.
Qed.

Lemma Checksum16_Ok (b : list byte) (s : Z) :
  Checksum16 b = Ok s -> Z.odd (len b) = false /\ s = sum16 b.
Proof.
  unfold Checksum16. destruct (Z.odd (len b)); [ discriminate | ].
  intros [= <-]. auto.
Qed.

(** The last three steps of the header patch, on a buffer [b]. *)
Lemma checksum_patch (b b0 b' : list byte) (headerLen sum : Z) :
  52 <= headerLen <= len b0 ->
  PutUint16 b 50 0 = Ok b0 ->
  Checksum16 (firstn (Z.to_nat headerLen) b0) = Ok sum ->
  PutUint16 b0 50 (wrap16 (0 - sum)) = Ok b' ->
  Checksum16 (firstn (Z.to_nat headerLen) b') = Ok 0.
Proof.
  intros Hh H0 Hsum H1. unfold PutUint16 in H0, H1.
  assert (L0 : length b0 = length b).
  { eapply (putLE_length 2 b b0 50 0); [ lia | exact H0 ]. }
  apply putLE_Ok in H0; [ | lia ]. destruct H0 as [Hb E0].
  apply putLE_Ok in H1; [ | lia ]. destruct H1 as [_ E1].
  apply Checksum16_Ok in Hsum. destruct Hsum as [Hodd ->].
  unfold len in *.
  set (p := firstn (Z.to_nat 50) b) in *.
  set (q := skipn (Z.to_nat 50 + 2) b) in *.
  assert (Lp : length p = 50%nat).
  { subst p. rewrite length_firstn. lia. }
  assert (Lq : (length q = length b - 52)%nat).
  { subst q. rewrite length_skipn. lia. }
  assert (F0 : firstn (Z.to_nat 50) b0 = p).
  { rewrite E0. rewrite firstn_app, Lp.
    change (Z.to_nat 50 - 50)%nat with 0%nat. cbn [firstn].
    rewrite app_nil_r. apply firstn_all2. lia. }
  assert (S0 : skipn (Z.to_nat 50 + 2) b0 = q).
  { rewrite E0. rewrite app_assoc. rewrite skipn_app.
    rewrite length_app, Lp, length_le_split.
    change (Z.to_nat 50 + 2 - (50 + 2))%nat with 0%nat. cbn [skipn].
    rewrite skipn_all2; [ reflexivity | ].
    rewrite length_app, Lp, length_le_split. lia. }
  rewrite F0, S0 in E1.
  set (h := Z.to_nat headerLen) in *.
  assert (Hh' : (52 <= h <= length b0)%nat) by lia.
  assert (Fst : forall w, firstn h (p ++ le_split 2 w ++ q)
                          = p ++ le_split 2 w ++ firstn (h - 52) q).
  { intros w. rewrite firstn_app, Lp.
    rewrite (firstn_all2 p) by lia. f_equal.
    rewrite firstn_app, length_le_split.
    rewrite (firstn_all2 (le_split 2 w)) by (rewrite length_le_split; lia).
    f_equal. f_equal. lia. }
  rewrite E0, Fst in Hodd. rewrite E0, Fst in E1. rewrite E1, Fst.
  unfold Checksum16.
  assert (Hlen : forall w, len (p ++ le_split 2 w ++ firstn (h - 52) q)
                           = len (p ++ le_split 2 0 ++ firstn (h - 52) q)).
  { intros w. unfold len. rewrite !length_app, !length_le_split. reflexivity. }
  rewrite Hlen. unfold len in *. rewrite Hodd.
  f_equal. apply (sum16_patched p (firstn (h - 52) q) 25). exact Lp.
Qed.

End HeaderChecksum.

(** ** Inversion of successful runs *)

Lemma bind_Ok {A B : Type} (r : result A) (k : A -> result B) (b : B) :
  bind r k = Ok b -> exists a, r = Ok a /\ k a = Ok b.
Proof. destruct r; cbn [bind]; try discriminate. eauto. Qed.

(** Splits a successful [x <- r ;; k] in [H] into its two steps. *)
Tactic Notation "bind_inv" hyp(H) "as" ident(x) ident(Hx) :=
  apply bind_Ok in H; destruct H as [x [Hx H]].

Lemma applyChildren_length {A : Type} (visit : A -> byte -> result (A * byte)) :
  forall children polarity children' polarity',
    Visitors.applyChildren visit children polarity = Ok (children', polarity') ->
    length children' = length children.
Proof.
  induction children as [ | c later IH ]; intros polarity children' polarity' H;
    cbn [Visitors.applyChildren] in H.
  - injection H as <- <-. reflexivity.
  - bind_inv H as r1 H1. destruct r1 as [c' p1].
    bind_inv H as r2 H2. destruct r2 as [later' p2].
    injection H as <- <-. cbn [length]. f_equal. eapply IH. exact H2.
Qed.

Section VolumeChecksum.

Import Visitors.

Context {L : Library}.

Lemma resize_HeaderLen (v v' : VolumeFields) (n : Z) :
  resize v n = Ok v' -> HeaderLen v' = HeaderLen v.
Proof.
  unfold resize. destruct (Length v <? n); [ | now intros [= <-] ].
  destruct (Blocks v) as [ | b0 bs ]; [ discriminate | ].
  destruct (Size b0 =? 0); [ discriminate | ].
  now intros [= <-].
Qed.

Lemma patchHeader_checksum (v : VolumeFields) (b b' : list byte) :
  patchHeader v b = Ok b' ->
  52 <= HeaderLen v ->
  Checksum16 (firstn (Z.to_nat (HeaderLen v)) b') = Ok 0.
Proof.
  intros H Hh. unfold patchHeader in H.
  bind_inv H as b1 H1. bind_inv H as blk Hblk. bind_inv H as b2 H2.
  bind_inv H as b3 H3. bind_inv H as sum Hsum.
  destruct (len b3 <? HeaderLen v) eqn:E; [ discriminate | ].
  apply Z.ltb_ge in E.
  eapply checksum_patch; eauto.
Qed.

Lemma assembleVolume_checksum (polarity : byte) (f f' : FirmwareVolume) :
  assembleVolume polarity f = Ok f' ->
  Files f <> [] ->
  52 <= HeaderLen (VolumeOf f) ->
  Checksum16 (firstn (Z.to_nat (HeaderLen (VolumeOf f'))) (VolumeBuf f')) = Ok 0.
Proof.
  intros H Hf Hh. unfold assembleVolume in H.
  destruct (Files f) as [ | file later ] eqn:Efiles; [ congruence | ].
  destruct (Length (VolumeOf f) <? len (VolumeBuf f)); [ discriminate | ].
  destruct (negb (DataOffset (VolumeOf f) =? len (VolumeBuf f)));
    [ discriminate | ].
  bind_inv H as fvBuf Hplace. unfold finishVolume in H.
  bind_inv H as v Hv. bind_inv H as b1 Hpad. bind_inv H as b2 Hpatch.
  injection H as <-. cbn [VolumeOf VolumeBuf].
  apply (patchHeader_checksum v b1 b2 Hpatch).
  rewrite (resize_HeaderLen _ _ _ Hv). exact Hh.
Qed.

End VolumeChecksum.

Section VolumeChecksumStatement.

Import Visitors.




End VolumeChecksumStatement.

(** ** Placement of the files of a volume *)

Section Placement.

Import Visitors.

Context {L : Library}.

Lemma InsertFile_Ok (polarity : byte) (b fb b' : list byte) (offset : Z) :
  InsertFile polarity b offset fb = Ok b' ->
  len b <= offset
  /\ b' = b ++ repeat polarity (Z.to_nat (offset - len b)) ++ fb.
Proof.
  unfold InsertFile. destruct (offset <? len b) eqn:E; [ discriminate | ].
  apply Z.ltb_ge in E. intros [= <-]. auto.
Qed.

Lemma fileError_Ok {A : Type} (r : result A) (a : A) :
  fileError r = Ok a -> r = Ok a.
Proof. destruct r; cbn [fileError]; congruence. Qed.

(** The loop only appends. *)
Lemma placeFile_extends (polarity : byte) (file : File) (b b' : list byte)
    (offset offset' : Z) :
  placeFile polarity file b offset = Ok (b', offset') ->
  exists added, b' = b ++ added.
Proof.
  unfold placeFile. destruct (len (FileBuf file) =? 0); [ discriminate | ].
  intros H. bind_inv H as r Hpad. destruct r as [b1 aligned].
  bind_inv H as b2 Hins. injection H as <- <-.
  apply fileError_Ok, InsertFile_Ok in Hins. destruct Hins as [_ ->].
  assert (H1 : exists added, b1 = b ++ added).
  { destruct (negb (GetAlignment (FileAttributes (Header file)) =? 1)).
    - match type of Hpad with
      | (let '(_, _) := ?c in _) = _ => destruct c as [fdo newOffset]
      end.
      bind_inv Hpad as b3 Hb3. injection Hpad as <- <-.
      match type of Hb3 with
      | (if ?c then _ else _) = _ => destruct c
      end.
      + bind_inv Hb3 as pf Hpf.
        apply fileError_Ok, InsertFile_Ok in Hb3. destruct Hb3 as [_ ->].
        eauto.
      + injection Hb3 as <-. exists []. now rewrite app_nil_r.
    - injection Hpad as <- <-. exists []. now rewrite app_nil_r. }
  destruct H1 as [added ->]. rewrite <- app_assoc. eauto.
Qed.

Lemma placeFiles_extends (polarity : byte) (files : list File) :
  forall (b b' : list byte) (offset : Z),
    placeFiles polarity files b offset = Ok b' ->
    exists added, b' = b ++ added.
Proof.
  induction files as [ | file later IH ]; intros b b' offset H;
    cbn [placeFiles] in H.
  - injection H as <-. exists []. now rewrite app_nil_r.
  - bind_inv H as r Hfile. destruct r as [b1 offset1].
    apply placeFile_extends in Hfile. destruct Hfile as [added1 ->].
    apply IH in H. destruct H as [added ->].
    rewrite <- app_assoc. eauto.
Qed.

Lemma FileHeaderLen_cases (file : File) :
  FileHeaderLen file = 24 \/ FileHeaderLen file = 32.
Proof. unfold FileHeaderLen. destruct (IsLarge _); auto. Qed.

Lemma enumerated_base (a : Z) :
  In a AlignmentBases -> a <> 1 -> 16 <= a <= 65536 /\ a mod 8 = 0.
Proof.
  cbn [AlignmentBases In].
  intros [H | [H | [H | [H | [H | [H | [H | [H | []]]]]]]]] Hne; subst a;
    try congruence; split; try lia; reflexivity.
Qed.

Lemma multiple_of_multiple (x a : Z) :
  0 < a -> x mod a = 0 -> a mod 8 = 0 -> x mod 8 = 0.
Proof.
  intros Ha Hx H8.
  apply Z.mod_divide in Hx; [ | lia ]. destruct Hx as [m ->].
  apply Z.mod_divide in H8; [ | lia ]. destruct H8 as [j ->].
  replace (m * (j * 8)) with (m * j * 8) by ring.
  apply Z.mod_mul. lia.
Qed.

(** After a multiple of the base, the next boundary is one base further. *)
Lemma Align_next (x base : Z) :
  0 <= x -> 0 < base -> x + 1 + base <= 2 ^ 64 -> x mod base = 0 ->
  Align (x + 1) base = x + base.
Proof.
  intros Hx Hb Hs Hm.
  destruct (Align_least_multiple (x + 1) base) as [Hr [Hd Hl]]; try lia.
  apply Z.mod_divide in Hm; [ | lia ]. destruct Hm as [k Hk].
  apply Z.mod_divide in Hd; [ | lia ]. destruct Hd as [k' Hk'].
  assert (k' = k + 1) by nia. nia.
Qed.

(** One turn of the loop, started at the end of the buffer. *)
Lemma placeFile_layout (polarity : byte) (file : File) (b b' : list byte)
    (offset' : Z) :
  AlignmentEnumerated L ->
  PadFileSized L ->
  placeFile polarity file b (len b) = Ok (b', offset') ->
  len b' < 2 ^ 63 ->
  let aligned := Align8 (len b) in
  let hole := aligned - len b in
  exists pad,
    0 <= hole < 8
    /\ PadFile polarity pad
    /\ PadRule (GetAlignment (FileAttributes (Header file)))
               (FileHeaderLen file) aligned (len pad)
    /\ b' = b ++ repeat polarity (Z.to_nat hole) ++ pad ++ FileBuf file
    /\ offset' = len b'
    /\ len b' = aligned + len pad + len (FileBuf file).
Proof.
  intros HA HP H Hlen aligned hole.
  destruct (placeFile_extends _ _ _ _ _ _ H) as [added Eadd].
  assert (Hb : 0 <= len b < 2 ^ 63).
  { pose proof (len_nonneg b). pose proof (len_nonneg added).
    rewrite Eadd, len_app in Hlen. lia. }
  clear added Eadd.
  destruct (Align_least_multiple (len b) 8) as [Hal [Hal8 _]]; try lia.
  fold (Align8 (len b)) in Hal8. fold aligned in Hal8.
  fold (Align8 (len b)) in Hal. fold aligned in Hal.
  unfold placeFile in H. fold aligned in H.
  destruct (len (FileBuf file) =? 0); [ discriminate | ].
  pose proof (HA (FileAttributes (Header file))) as Ha.
  pose proof (FileHeaderLen_cases file) as Hhl.
  set (a := GetAlignment (FileAttributes (Header file))) in *.
  set (hl := FileHeaderLen file) in *.
  pose proof (len_nonneg (FileBuf file)) as Hfl.
  unfold PadRule.
  destruct (a =? 1) eqn:Ea; cbn [negb bind] in H.
  - bind_inv H as b2 Hins. injection H as <- <-.
    apply fileError_Ok, InsertFile_Ok in Hins. destruct Hins as [_ ->].
    exists []. fold hole in Hlen |- *. cbn [app].
    assert (El : len (b ++ repeat polarity (Z.to_nat hole) ++ FileBuf file)
                 = aligned + len (FileBuf file)).
    { rewrite !len_app, len_repeat. unfold hole. lia. }
    rewrite El in *. change (len []) with 0.
    repeat split; try (unfold hole; lia); try (left; reflexivity).
    apply wrap64_small. lia.
  - apply Z.eqb_neq in Ea.
    destruct (enumerated_base a Ha Ea) as [[Ha1 Ha2] Ha8].
    rewrite (wrap64_small (aligned + hl)) in H by lia.
    destruct (Align_least_multiple (aligned + hl) a) as [Hf [Hfd _]]; try lia.
    set (fdo := Align (aligned + hl) a) in *.
    rewrite (wrap64_small (fdo - hl)) in H by lia.
    rewrite (wrap64_small (fdo - hl - aligned)) in H by lia.
    rewrite (wrap64_small (fdo + 1)) in H by lia.
    rewrite (Align_next fdo a) in H by lia.
    rewrite (wrap64_small (fdo + a - hl)) in H by lia.
    set (bump := (8 <=? fdo - hl - aligned)
                 && (fdo - hl - aligned <? FileHeaderMinLength)) in *.
    set (newOffset := if bump then fdo + a - hl else fdo - hl).
    assert (Hnew : aligned <= newOffset < aligned + 2 * 65536
                   /\ ~ (8 <= newOffset - aligned < FileHeaderMinLength)
                   /\ aligned + (newOffset - aligned) + hl
                      = (if bump then Align (fdo + 1) a else fdo)
                   /\ (newOffset = aligned
                       \/ FileHeaderMinLength <= newOffset - aligned)).
    { pose proof (multiple_of_multiple fdo a ltac:(lia) Hfd Ha8) as Hf8.
      apply Z.mod_divide in Hf8; [ | lia ]. destruct Hf8 as [q1 Hq1].
      apply Z.mod_divide in Hal8; [ | lia ]. destruct Hal8 as [q2 Hq2].
      subst newOffset. unfold FileHeaderMinLength in *.
      destruct bump eqn:Eb; subst bump.
      - apply andb_true_iff in Eb. destruct Eb as [E1 E2].
        apply Z.leb_le in E1. apply Z.ltb_lt in E2.
        rewrite (Align_next fdo a) by lia. lia.
      - apply andb_false_iff in Eb.
        rewrite Z.leb_gt, Z.ltb_ge in Eb. lia. }
    destruct Hnew as [Hn1 [Hn2 [Hn3 Hn4]]].
    replace (let '(_, newOffset0) :=
               if bump then (fdo + a, fdo + a - hl) else (fdo, fdo - hl) in
             fvBuf <-
               (if negb (newOffset0 =? aligned) then
                  pfile <- CreatePadFile polarity (wrap64 (newOffset0 - aligned)) ;;
                  fileError (InsertFile polarity b aligned (FileBuf pfile))
                else Ok b) ;;
             Ok (fvBuf, newOffset0))
      with (fvBuf <-
              (if negb (newOffset =? aligned) then
                 pfile <- CreatePadFile polarity (wrap64 (newOffset - aligned)) ;;
                 fileError (InsertFile polarity b aligned (FileBuf pfile))
               else Ok b) ;;
            Ok (fvBuf, newOffset))
      in H by (subst newOffset; destruct bump; reflexivity).
    clearbody newOffset.
    bind_inv H as r Hpad. destruct r as [b1 off1].
    bind_inv Hpad as b3 Hb3. injection Hpad as <- <-.
    bind_inv H as b2 Hins. injection H as <- <-.
    apply fileError_Ok, InsertFile_Ok in Hins. destruct Hins as [Hle ->].
    rewrite (wrap64_small (newOffset - aligned)) in Hb3 by lia.
    destruct (newOffset =? aligned) eqn:En; cbn [negb] in Hb3.
    + apply Z.eqb_eq in En. injection Hb3 as <-. rewrite En in *.
      fold hole in Hlen |- *.
      exists []. cbn [app]. change (len []) with 0.
      assert (El : len (b ++ repeat polarity (Z.to_nat hole) ++ FileBuf file)
                   = aligned + len (FileBuf file)).
      { rewrite !len_app, len_repeat. unfold hole. lia. }
      rewrite El in *. rewrite Z.sub_diag in Hn2, Hn3.
      repeat split; try (unfold hole; lia); try (left; reflexivity);
        try assumption.
      apply wrap64_small. lia.
    + apply Z.eqb_neq in En.
      bind_inv Hb3 as pf Hpf.
      apply fileError_Ok, InsertFile_Ok in Hb3. destruct Hb3 as [_ ->].
      pose proof (HP _ _ _ Hpf) as Hsize.
      assert (Hmin : FileHeaderMinLength <= newOffset - aligned)
        by (destruct Hn4; [ contradiction | assumption ]).
      assert (Hbound : newOffset + len (FileBuf file) < 2 ^ 63).
      { rewrite !len_app, !len_repeat, Hsize in Hlen.
        rewrite !len_app, !len_repeat, Hsize in Hle. lia. }
      clear Hlen Hle.
      exists (FileBuf pf). fold hole. rewrite Hsize.
      assert (E1 : len (b ++ repeat polarity (Z.to_nat hole) ++ FileBuf pf)
                   = newOffset).
      { rewrite !len_app, len_repeat, Hsize. unfold hole. lia. }
      rewrite E1. rewrite Z.sub_diag. cbn [Z.to_nat repeat app].
      rewrite <- !app_assoc.
      assert (El : len (b ++ repeat polarity (Z.to_nat hole) ++ FileBuf pf
                          ++ FileBuf file)
                   = newOffset + len (FileBuf file)).
      { rewrite !len_app, len_repeat, Hsize. unfold hole. lia. }
      rewrite El.
      repeat split; try (unfold hole; lia); try assumption.
      * right. split; [ lia | ]. exists pf. rewrite Hsize. auto.
      * apply wrap64_small. lia.
Qed.

End Placement.

Section PlacementStatement.

Import Visitors.

(** C3: after the placement loop, what was appended to the volume buffer is,
    file by file, a hole of fewer than eight erase-polarity bytes up to the
    8-byte boundary, then either nothing or one pad file made for exactly the
    size of the gap, at least [FileHeaderMinLength] long, then the file; the
    gap is never in [[8, FileHeaderMinLength)], and a tentative gap in that
    range moves the file data to [Align (fileDataOffset + 1) alignBase].
    The alignment bases are the enumerated ones, [CreatePadFile] honours the
    requested size, and the buffer has the length of a Go slice. *)
Theorem placeFiles_layout :
  forall (L : Library) (polarity : byte) (files : list File)
         (fvBuf fvBuf' : list byte),
    AlignmentEnumerated L ->
    PadFileSized L ->
    placeFiles polarity files fvBuf (len fvBuf) = Ok fvBuf' ->
    len fvBuf' < 2 ^ 63 ->
    exists placed,
      fvBuf' = fvBuf ++ placed /\ Placed polarity files (len fvBuf) placed.
Proof.
  intros L polarity files.
  induction files as [ | file later IH ]; intros fvBuf fvBuf' HA HP H Hlen;
    cbn [placeFiles] in H.
  - injection H as <-. exists []. split; [ now rewrite app_nil_r | constructor ].
  - bind_inv H as r Hfile. destruct r as [b1 offset1].
    destruct (placeFiles_extends _ _ _ _ _ H) as [added Eadd].
    assert (Hb1 : len b1 < 2 ^ 63).
    { pose proof (len_nonneg added). rewrite Eadd, len_app in Hlen. lia. }
    clear added Eadd.
    destruct (placeFile_layout _ _ _ _ _ HA HP Hfile Hb1)
      as [pad [Hhole [Hpad [Hrule [Eb1 [Eoff Elen]]]]]].
    subst offset1.
    destruct (IH b1 fvBuf' HA HP H Hlen) as [rest [E Hrest]].
    exists (repeat polarity (Z.to_nat (Align8 (len fvBuf) - len fvBuf))
              ++ pad ++ FileBuf file ++ rest).
    split.
    + rewrite E, Eb1. now rewrite <- !app_assoc.
    + apply Placed_cons; try assumption.
      rewrite <- Elen. exact Hrest.
Qed.

Lemma Reference_AlignmentEnumerated : AlignmentEnumerated Reference.library.
Proof.
  intros attrs. cbn [GetAlignment Reference.library].
  unfold Reference.getAlignment.
  change 7 with (Z.ones 3). rewrite Z.land_ones by lia.
  pose proof (Z.mod_pos_bound (Z.shiftr attrs 3) (2 ^ 3) eq_refl) as B.
  set (n := Z.to_nat (Z.shiftr attrs 3 mod 2 ^ 3)).
  assert (Hn : (n < 8)%nat) by (subst n; lia).
  clearbody n.
  do 8 (destruct n as [ | n ]; [ cbn; tauto | ]). lia.
Qed.

Lemma Reference_encodeFileHeader_length (h : FileHeader) :
  len (Reference.encodeFileHeader h) = 24.
Proof.
  unfold Reference.encodeFileHeader, Reference.sized, len.
  rewrite !length_app, !length_le_split, length_firstn, length_app,
    repeat_length.
  cbn [length]. lia.
Qed.

Lemma Reference_PadFileSized : PadFileSized Reference.library.
Proof.
  intros polarity size pf. cbn [CreatePadFile Reference.library].
  unfold Reference.createPadFile, FileHeaderMinLength.
  destruct (size <? 24) eqn:E; [ discriminate | ].
  intros H. cbv zeta in H.
  match type of H with
  | Ok (mkFile ?h (?enc ++ ?body) []) = Ok pf =>
      assert (Ebuf : FileBuf pf = enc ++ body)
        by (injection H as <-; reflexivity)
  end.
  rewrite Ebuf, len_app, Reference_encodeFileHeader_length, len_repeat.
  lia.
Qed.

Lemma placeFiles_layout_witness :
  exists fvBuf' placed,
    placeFiles (L := Reference.library) Byte.xff Examples.alignedFiles
      (Examples.volumeHeader Examples.polarityFF 72)
      (len (Examples.volumeHeader Examples.polarityFF 72))
    = Ok fvBuf'
    /\ len fvBuf' < 2 ^ 63
    /\ fvBuf' = Examples.volumeHeader Examples.polarityFF 72 ++ placed
    /\ Placed (L := Reference.library) Byte.xff Examples.alignedFiles
         (len (Examples.volumeHeader Examples.polarityFF 72)) placed.
Proof.
  destruct (placeFiles (L := Reference.library) Byte.xff Examples.alignedFiles
              (Examples.volumeHeader Examples.polarityFF 72)
              (len (Examples.volumeHeader Examples.polarityFF 72)))
    as [ fvBuf' | e | p | ] eqn:E;
    [ | vm_compute in E; discriminate E .. ].
  assert (Hlen : len fvBuf' < 2 ^ 63).
  { assert (El : len fvBuf' = 146).
    { vm_compute in E. injection E as <-. reflexivity. }
    rewrite El. reflexivity. }
  destruct (placeFiles_layout Reference.library Byte.xff Examples.alignedFiles
              (Examples.volumeHeader Examples.polarityFF 72) fvBuf'
              Reference_AlignmentEnumerated Reference_PadFileSized E Hlen)
    as [placed [Eplaced Hplaced]].
  exists fvBuf', placed. auto.
Defined.

End PlacementStatement.

(** ** Preconditions of the volume case *)

Section VolumePreconditions.

Import Visitors.

(** C10: once the files of a volume that has files are assembled, the volume
    case returns an error before the placement loop when the buffer is longer
    than the declared [Length], and when its length differs from
    [DataOffset]; when neither is the case the run goes on with the placement
    loop, started at the end of the buffer. *)
Theorem VisitVolume_preconditions :
  forall (L : Library) (f : FirmwareVolume) (polarity : byte)
         (files' : list File) (polarity' : byte),
    Files f <> [] ->
    applyChildren VisitFile (Files f)
      (GetErasePolarity (Attributes (VolumeOf f))) = Ok (files', polarity') ->
    let v := VolumeOf f in
    let n := len (VolumeBuf f) in
    (Length v < n ->
     VisitVolume f polarity = Err (ErrBufferBiggerThanLength (Length v) n))
    /\ (n <= Length v -> DataOffset v <> n ->
        VisitVolume f polarity = Err (ErrDataOffsetMismatch n (DataOffset v)))
    /\ (n <= Length v -> DataOffset v = n ->
        VisitVolume f polarity
        = (fvBuf <- placeFiles polarity' files' (VolumeBuf f) n ;;
           g <- finishVolume polarity'
                  (mkFirmwareVolume v (VolumeBuf f) files') fvBuf ;;
           Ok (g, polarity'))).
Proof.
  intros L [v b files] polarity files' polarity' Hfiles Hchildren.
  cbn [Files VolumeOf VolumeBuf] in *. cbv zeta.
  assert (Hfiles' : files' <> []).
  { apply applyChildren_length in Hchildren.
    destruct files'; [ | discriminate ].
    destruct files; [ congruence | discriminate ]. }
  cbn [VisitVolume]. rewrite Hchildren. cbn [bind].
  unfold assembleVolume. cbn [Files VolumeOf VolumeBuf].
  destruct files' as [ | file later ]; [ congruence | ].
  repeat split.
  - intros Hlt. apply Z.ltb_lt in Hlt. rewrite Hlt. reflexivity.
  - intros Hle Hne. apply Z.ltb_ge in Hle. apply Z.eqb_neq in Hne.
    rewrite Hle, Hne. reflexivity.
  - intros Hle He. apply Z.ltb_ge in Hle. rewrite Hle.
    rewrite He, Z.eqb_refl. cbn [negb].
    destruct (placeFiles polarity' (file :: later) b (len b)); reflexivity.
Qed.

Lemma VisitVolume_preconditions_witness :
  exists files' polarity',
    Files Examples.volumeMismatch <> []
    /\ applyChildren (VisitFile (L := Reference.library))
         (Files Examples.volumeMismatch)
         (@GetErasePolarity Reference.library
            (Attributes (VolumeOf Examples.volumeMismatch)))
       = Ok (files', polarity')
    /\ 72 <= 256
    /\ 64 <> 72
    /\ VisitVolume (L := Reference.library) Examples.volumeMismatch Byte.x00
       = Err (ErrDataOffsetMismatch 72 64).
Proof.
  destruct (applyChildren (VisitFile (L := Reference.library))
              (Files Examples.volumeMismatch)
              (@GetErasePolarity Reference.library
            (Attributes (VolumeOf Examples.volumeMismatch))))
    as [ [files' polarity'] | e | p | ] eqn:E;
    [ | vm_compute in E; discriminate E .. ].
  exists files', polarity'.
  assert (Hfiles : Files Examples.volumeMismatch <> []) by discriminate.
  split; [ exact Hfiles | ]. split; [ reflexivity | ].
  split; [ lia | ]. split; [ lia | ].
  destruct (VisitVolume_preconditions Reference.library
              Examples.volumeMismatch Byte.x00 files' polarity' Hfiles E)
    as [_ [Hmismatch _]].
  apply Hmismatch.
  - vm_compute. discriminate.
  - vm_compute. discriminate.
Defined.

End VolumePreconditions.

(** ** The erase polarity in force when a file is rewritten *)

Section ErasePolarity.

Import Visitors.

(** Visiting a volume without files leaves its own polarity in the
    package-level variable. *)
Lemma VisitVolume_leaves_its_polarity (L : Library) (f : FirmwareVolume)
    (polarity : byte) :
  Files f = [] ->
  VisitVolume f polarity
  = Ok (f, GetErasePolarity (Attributes (VolumeOf f))).
Proof.
  destruct f as [v b files]. cbn [Files VolumeOf]. intros ->. reflexivity.
Qed.

(** A file without sections gets the State byte of whatever polarity the
    variable holds when the file is visited. *)
Lemma VisitFile_raw_state (L : Library) (f : File) (polarity : byte) :
  Sections f = [] ->
  23 < len (FileBuf f) ->
  exists f',
    VisitFile f polarity = Ok (f', polarity)
    /\ nth 23 (FileBuf f') Byte.x00 = byte.xor Byte.x07 polarity.
Proof.
  destruct f as [h b sections]. cbn [Sections FileBuf]. intros -> Hlen.
  cbn [VisitFile applyChildren bind]. unfold assembleFile.
  cbn [Sections FileBuf Header].
  apply Z.leb_gt in Hlen. rewrite Hlen. cbn [bind].
  eexists. split; [ reflexivity | ]. cbn [FileBuf].
  apply Z.leb_gt in Hlen. unfold len in Hlen.
  rewrite app_nth2; rewrite length_firstn; [ | lia ].
  replace (23 - Nat.min 23 (length b))%nat with 0%nat by lia.
  reflexivity.
Qed.

(** C4 (code defect): in a volume of erase polarity [0xFF] whose first file
    holds a volume of erase polarity [0x00] in one of its sections, the
    assembler succeeds and writes the State byte [0x07 = 0x07 xor 0x00] into
    both the file that holds the inner volume and the raw file after it,
    where the enclosing volume calls for [0xF8 = 0x07 xor 0xFF]: the inner
    volume set the package-level polarity and nothing restores it. *)
Theorem VisitVolume_inner_volume_polarity_leaks :
  exists v b imageFile' rawFile' polarity',
    VisitVolume (L := Reference.library) Examples.nestedVolume Byte.x00
    = Ok (mkFirmwareVolume v b [imageFile'; rawFile'], polarity')
    /\ @GetErasePolarity Reference.library
         (Attributes (VolumeOf Examples.nestedVolume)) = Byte.xff
    /\ byte.xor Byte.x07 Byte.xff = Byte.xf8
    /\ nth 23 (FileBuf imageFile') Byte.x00 = Byte.x07
    /\ nth 23 (FileBuf rawFile') Byte.x00 = Byte.x07
    /\ nth (72 + 23) b Byte.x00 = Byte.x07
    /\ nth (176 + 23) b Byte.x00 = Byte.x07
    /\ polarity' = Byte.x00.
Proof.
  do 5 eexists.
  split; [ vm_compute; reflexivity | ].
  repeat split.
Qed.

End ErasePolarity.

(** ** More on [FindFirmwareVolumeOffset] *)

Lemma bytes_Equal_eq (a b : list byte) : bytes_Equal a b = true <-> a = b.
Proof.
  revert b. induction a as [ | x a IH ]; intros [ | y b ]; cbn [bytes_Equal];
    try (split; [ discriminate | congruence ]); [ tauto | ].
  unfold byte_eqb. rewrite andb_true_iff, IH. split.
  - intros [Hx ->]. apply Byte.byte_dec_bl in Hx. congruence.
  - intros [= -> ->]. split; [ now apply Byte.byte_dec_lb | reflexivity ].
Qed.

Lemma reslice_window (data w : slice) (o : Z) :
  reslice data o (o + 4) = Ok w -> elems w = windowAt data o /\ o + 4 <= scap data.
Proof.
  unfold reslice.
  destruct ((o + 4 <? o) || (scap data <? o + 4)) eqn:E; [ discriminate | ].
  apply orb_false_iff in E. destruct E as [_ E]. apply Z.ltb_ge in E.
  intros [= <-]. cbn [elems]. unfold windowAt.
  replace (o + 4 - o) with 4 by lia. auto.
Qed.

(** The scan over the offsets [32 + 8 * k] for [k] from [s], [c] of them. *)
Lemma scanSignature_result (data : slice) (c : nat) :
  forall (s : nat) (r : Z),
    Uefi.scanSignature data
      (map (fun k => 32 + 8 * Z.of_nat k) (seq s c)) = Ok r ->
    (r = -1
     /\ forall k, (s <= k < s + c)%nat ->
                  windowAt data (32 + 8 * Z.of_nat k) <> Uefi.fvSig)
    \/ (exists k, (s <= k < s + c)%nat
                  /\ r = 32 + 8 * Z.of_nat k - 40
                  /\ windowAt data (32 + 8 * Z.of_nat k) = Uefi.fvSig
                  /\ forall k', (s <= k' < k)%nat ->
                        windowAt data (32 + 8 * Z.of_nat k') <> Uefi.fvSig).
Proof.
  induction c as [ | c IH ]; intros s r H; cbn [seq map Uefi.scanSignature] in H.
  - left. injection H as <-. split; [ reflexivity | intros k Hk; lia ].
  - bind_inv H as w Hw. apply reslice_window in Hw. destruct Hw as [Ew _].
    rewrite Ew in H.
    destruct (bytes_Equal (windowAt data (32 + 8 * Z.of_nat s)) Uefi.fvSig)
      eqn:Eq.
    + right. injection H as <-. apply bytes_Equal_eq in Eq.
      exists s. split; [ lia | ]. split; [ reflexivity | ].
      split; [ exact Eq | intros k' Hk'; lia ].
    + assert (Hs : windowAt data (32 + 8 * Z.of_nat s) <> Uefi.fvSig).
      { intros E. apply bytes_Equal_eq in E. congruence. }
      destruct (IH (S s) r H) as [[-> Hall] | [k [Hk [-> [Hm Hbefore]]]]].
      * left. split; [ reflexivity | ]. intros k Hk.
        destruct (Nat.eq_dec k s) as [-> | Hne]; [ exact Hs | apply Hall; lia ].
      * right. exists k. split; [ lia | ]. split; [ reflexivity | ].
        split; [ exact Hm | ]. intros k' Hk'.
        destruct (Nat.eq_dec k' s) as [-> | Hne];
          [ exact Hs | apply Hbefore; lia ].
Qed.

(** X1: what a returned offset means.  When [FindFirmwareVolumeOffset]
    returns, it returns either -1, and no multiple of eight from 32 below the
    length carries the signature, or [o - 40] for the first such offset [o]
    that does. *)
Theorem FindFirmwareVolumeOffset_result :
  forall (data : slice) (r : Z),
    Uefi.FindFirmwareVolumeOffset data = Ok r ->
    (r = -1
     /\ forall o, 32 <= o < slen data -> (o - 32) mod 8 = 0 ->
                  windowAt data o <> Uefi.fvSig)
    \/ (exists o, r = o - 40
                  /\ 32 <= o < slen data /\ (o - 32) mod 8 = 0
                  /\ windowAt data o = Uefi.fvSig
                  /\ forall o', 32 <= o' < o -> (o' - 32) mod 8 = 0 ->
                        windowAt data o' <> Uefi.fvSig).
Proof.
  intros data r H. unfold Uefi.FindFirmwareVolumeOffset in H.
  destruct (slen data <? 32) eqn:E.
  - left. apply Z.ltb_lt in E. injection H as <-.
    split; [ reflexivity | intros o Ho; lia ].
  - apply Z.ltb_ge in E. unfold Uefi.scanOffsets in H.
    set (c := Z.to_nat ((slen data - 32 + 7) / 8)) in *.
    assert (Hc : forall o, 32 <= o -> (o - 32) mod 8 = 0 ->
                   exists k, o = 32 + 8 * Z.of_nat k
                             /\ (o < slen data <-> (k < c)%nat)).
    { intros o Ho Hm. exists (Z.to_nat ((o - 32) / 8)).
      rewrite Z2Nat.id by (apply Z.div_pos; lia).
      split; [ Z.div_mod_to_equations; lia | ].
      subst c. rewrite <- Z2Nat.inj_lt by (apply Z.div_pos; lia).
      Z.div_mod_to_equations. lia. }
    assert (Hk : forall k, (k < c)%nat -> 32 + 8 * Z.of_nat k < slen data).
    { intros k Hlt. subst c.
      assert (Z.of_nat k < (slen data - 32 + 7) / 8) by lia.
      Z.div_mod_to_equations. lia. }
    destruct (scanSignature_result data c 0 r H)
      as [[-> Hall] | [k [Hkc [-> [Hm Hbefore]]]]].
    + left. split; [ reflexivity | ]. intros o Ho Hm.
      destruct (Hc o ltac:(lia) Hm) as [k [-> Hiff]].
      apply Hall. lia.
    + right. exists (32 + 8 * Z.of_nat k).
      split; [ reflexivity | ]. split; [ specialize (Hk k); lia | ].
      split; [ replace (32 + 8 * Z.of_nat k - 32) with (Z.of_nat k * 8) by ring;
               apply Z.mod_mul; lia | ].
      split; [ exact Hm | ]. intros o' Ho' Hm'.
      destruct (Hc o' ltac:(lia) Hm') as [k' [-> _]].
      apply Hbefore. lia.
Qed.

(** X2: the scan returns whenever four bytes follow the last offset it
    visits: on every slice shorter than 32 bytes, and on every slice whose
    length is a multiple of eight, or four to seven bytes above one. *)
Theorem FindFirmwareVolumeOffset_returns :
  forall data : slice,
    slen data < 32 \/ (slen data) mod 8 = 0 \/ 4 <= (slen data) mod 8 ->
    exists r, Uefi.FindFirmwareVolumeOffset data = Ok r.
Proof.
  intros data H. unfold Uefi.FindFirmwareVolumeOffset.
  destruct (slen data <? 32) eqn:E; [ eauto | ].
  apply Z.ltb_ge in E. apply scanSignature_returns.
  intros o Ho. apply scanOffsets_spec in Ho. destruct Ho as [Ho Hm].
  pose proof (len_nonneg (spare data)) as Hs.
  unfold scap. fold (slen data).
  split; [ lia | ].
  destruct H as [H | [H | H]]; [ lia | | ]; Z.div_mod_to_equations; lia.
Qed.

Lemma FindFirmwareVolumeOffset_returns_witness :
  (slen (tight (Examples.volumeImage 64 0)) < 32
   \/ (slen (tight (Examples.volumeImage 64 0))) mod 8 = 0
   \/ 4 <= (slen (tight (Examples.volumeImage 64 0))) mod 8)
  /\ exists r,
       Uefi.FindFirmwareVolumeOffset (tight (Examples.volumeImage 64 0)) = Ok r.
Proof.
  assert (H : slen (tight (Examples.volumeImage 64 0)) < 32
              \/ (slen (tight (Examples.volumeImage 64 0))) mod 8 = 0
              \/ 4 <= (slen (tight (Examples.volumeImage 64 0))) mod 8).
  { right. left. reflexivity. }
  split; [ exact H | ].
  exact (FindFirmwareVolumeOffset_returns _ H).
Defined.

Lemma scanSignature_skips (data : slice) (l1 l2 : list Z) :
  (forall o, In o l1 -> 0 <= o /\ o + 4 <= scap data
                        /\ windowAt data o <> Uefi.fvSig) ->
  Uefi.scanSignature data (l1 ++ l2) = Uefi.scanSignature data l2.
Proof.
  induction l1 as [ | o l1 IH ]; intros H; cbn [app Uefi.scanSignature].
  - reflexivity.
  - destruct (H o (or_introl eq_refl)) as [Ho [Hc Hw]].
    unfold reslice.
    replace (o + 4 <? o) with false by (symmetry; apply Z.ltb_ge; lia).
    replace (scap data <? o + 4) with false by (symmetry; apply Z.ltb_ge; lia).
    cbn [orb bind elems]. replace (o + 4 - o) with 4 by lia.
    change (firstn (Z.to_nat 4) (skipn (Z.to_nat o) (elems data ++ spare data)))
      with (windowAt data o).
    destruct (bytes_Equal (windowAt data o) Uefi.fvSig) eqn:E.
    + apply bytes_Equal_eq in E. contradiction.
    + apply IH. intros o' Ho'. apply H. now right.
Qed.

(** X3: when the panic of the scan occurs.  On a slice without spare
    capacity, of at least 32 bytes and one to three bytes longer than a
    multiple of eight, that carries no signature at the offsets before the
    last one, the slice expression at the last offset panics. *)
Theorem FindFirmwareVolumeOffset_panic_condition :
  forall data : slice,
    spare data = [] ->
    32 <= slen data ->
    1 <= (slen data) mod 8 <= 3 ->
    (forall o, 32 <= o < slen data - (slen data) mod 8 ->
               (o - 32) mod 8 = 0 -> windowAt data o <> Uefi.fvSig) ->
    Uefi.FindFirmwareVolumeOffset data
    = Panic (SliceBoundsOutOfRange (slen data - (slen data) mod 8 + 4)
                                   (slen data)).
Proof.
  intros data Hspare Hlen Hm Hno. unfold Uefi.FindFirmwareVolumeOffset.
  replace (slen data <? 32) with false by (symmetry; apply Z.ltb_ge; lia).
  unfold Uefi.scanOffsets.
  assert (Hge : 32 <= slen data - (slen data) mod 8)
    by (Z.div_mod_to_equations; lia).
  assert (Hdiv : (slen data - 32 + 7) / 8
                 = (slen data - (slen data) mod 8 - 32) / 8 + 1)
    by (Z.div_mod_to_equations; lia).
  assert (Hmul : 8 * ((slen data - (slen data) mod 8 - 32) / 8)
                 = slen data - (slen data) mod 8 - 32)
    by (Z.div_mod_to_equations; lia).
  set (m := (slen data) mod 8) in *.
  assert (Hq : 0 <= (slen data - m - 32) / 8) by (apply Z.div_pos; lia).
  assert (Hc : Z.to_nat ((slen data - 32 + 7) / 8)
               = S (Z.to_nat ((slen data - m - 32) / 8))).
  { rewrite <- Z2Nat.inj_succ by exact Hq. f_equal. lia. }
  rewrite Hc. set (c := Z.to_nat ((slen data - m - 32) / 8)).
  assert (Elast : 32 + 8 * Z.of_nat c = slen data - m).
  { subst c. rewrite Z2Nat.id by exact Hq. lia. }
  rewrite seq_S, map_app. cbn [plus map].
  rewrite scanSignature_skips.
  - cbn [Uefi.scanSignature]. rewrite Elast. unfold reslice.
    assert (Ecap : scap data = slen data).
    { unfold scap, slen. rewrite Hspare. cbn. lia. }
    rewrite Ecap.
    replace (slen data <? slen data - m + 4) with true
      by (symmetry; apply Z.ltb_lt; lia).
    rewrite orb_true_r. reflexivity.
  - intros o Ho. apply in_map_iff in Ho. destruct Ho as [k [<- Hk]].
    apply in_seq in Hk.
    pose proof (len_nonneg (spare data)) as Hs.
    unfold scap. fold (slen data).
    split; [ lia | ]. split; [ lia | ].
    apply Hno; [ lia | ].
    replace (32 + 8 * Z.of_nat k - 32) with (Z.of_nat k * 8) by ring.
    apply Z.mod_mul. lia.
Qed.

Lemma FindFirmwareVolumeOffset_panic_condition_witness :
  spare Examples.zeros33 = []
  /\ 32 <= slen Examples.zeros33
  /\ 1 <= (slen Examples.zeros33) mod 8 <= 3
  /\ Uefi.FindFirmwareVolumeOffset Examples.zeros33
     = Panic (SliceBoundsOutOfRange 36 33).
Proof.
  assert (H1 : spare Examples.zeros33 = []) by reflexivity.
  assert (H2 : 32 <= slen Examples.zeros33) by (vm_compute; discriminate).
  assert (H3 : 1 <= (slen Examples.zeros33) mod 8 <= 3)
    by (vm_compute; split; discriminate).
  split; [ exact H1 | ]. split; [ exact H2 | ]. split; [ exact H3 | ].
  apply (FindFirmwareVolumeOffset_panic_condition Examples.zeros33 H1 H2 H3).
  intros o Ho. change (slen Examples.zeros33) with 33 in Ho.
  change (33 mod 8) with 1 in Ho. lia.
Defined.

(** ** More on [NewFirmwareVolume] *)

Lemma field_bound (off n : nat) (b : list byte) :
  0 <= field off n b < 2 ^ (8 * Z.of_nat n).
Proof.
  unfold field.
  pose proof (le_combine_bound (firstn n (skipn off b))) as B.
  assert (Hl : (length (firstn n (skipn off b)) <= n)%nat)
    by (rewrite length_firstn; lia).
  assert (Hp : 2 ^ (8 * Z.of_nat (length (firstn n (skipn off b))))
               <= 2 ^ (8 * Z.of_nat n))
    by (apply Z.pow_le_mono_r; lia).
  lia.
Qed.

Lemma readN_Ok (n : nat) (rest a b : list byte) :
  readN n rest = Ok (a, b) ->
  (n <= length rest)%nat /\ a = firstn n rest /\ b = skipn n rest.
Proof.
  unfold readN. destruct rest as [ | x rest ].
  - destruct n; [ | discriminate ]. intros [= <- <-]. cbn. auto.
  - destruct (length (x :: rest) <? n)%nat eqn:E; [ discriminate | ].
    apply Nat.ltb_ge in E. intros [= <- <-]. auto.
Qed.

Lemma readN_enough (n : nat) (rest : list byte) :
  (0 < n <= length rest)%nat ->
  readN n rest = Ok (firstn n rest, skipn n rest).
Proof.
  intros H. unfold readN. destruct rest as [ | x rest ];
    [ cbn [length] in H; lia | ].
  replace (length (x :: rest) <? n)%nat with false
    by (symmetry; apply Nat.ltb_ge; lia).
  reflexivity.
Qed.

Lemma reslice_Ok (s w : slice) (low high : Z) :
  reslice s low high = Ok w ->
  low <= high <= scap s
  /\ elems w = firstn (Z.to_nat (high - low))
                      (skipn (Z.to_nat low) (elems s ++ spare s)).
Proof.
  unfold reslice.
  destruct ((high <? low) || (scap s <? high)) eqn:E; [ discriminate | ].
  apply orb_false_iff in E. destruct E as [E1 E2].
  apply Z.ltb_ge in E1, E2. intros [= <-]. cbn [elems]. auto.
Qed.

(** The block-map loop on what the reader has left. *)
Lemma readBlocks_Ok (k : nat) :
  forall (rest rest' : list byte) (acc blocks : list Uefi.Block),
    (length rest <= k)%nat ->
    Uefi.readBlocks rest acc = Ok (blocks, rest') ->
    exists new,
      blocks = acc ++ new
      /\ (8 * (length new + 1) <= length rest)%nat
      /\ (forall i, (i < length new)%nat ->
            nth i new (Uefi.mkBlock 0 0)
            = Uefi.decodeBlock (firstn 8 (skipn (8 * i) rest))
            /\ isTerminator (Uefi.decodeBlock (firstn 8 (skipn (8 * i) rest)))
               = false)
      /\ isTerminator
           (Uefi.decodeBlock (firstn 8 (skipn (8 * length new) rest))) = true.
Proof.
  induction k as [ | k IH ]; intros rest rest' acc blocks Hk H.
  - destruct rest; [ discriminate | cbn in Hk; lia ].
  - destruct rest as [ | b0 [ | b1 [ | b2 [ | b3 [ | b4 [ | b5 [ | b6 [ | b7 rest ]]]]]]]];
      try discriminate.
    cbn [Uefi.readBlocks] in H.
    set (block := Uefi.decodeBlock [b0; b1; b2; b3; b4; b5; b6; b7]) in *.
    destruct ((Uefi.Count block =? 0) && (Uefi.Size block =? 0)) eqn:E.
    + injection H as <- <-. exists []. rewrite app_nil_r.
      split; [ reflexivity | ]. split; [ cbn [length]; lia | ].
      split; [ intros i Hi; cbn in Hi; lia | exact E ].
    + apply IH in H; [ | cbn [length] in Hk; lia ].
      destruct H as [new [-> [Hlen [Hnth Hterm]]]].
      exists (block :: new). rewrite <- app_assoc.
      split; [ reflexivity | ]. split; [ cbn [length] in *; lia | ].
      split.
      * intros [ | i ] Hi.
        -- split; [ reflexivity | exact E ].
        -- replace (8 * S i)%nat with (8 + 8 * i)%nat by lia.
           cbn [nth]. apply Hnth. cbn [length] in Hi. lia.
      * cbn [length]. replace (8 * S (length new))%nat
          with (8 + 8 * length new)%nat by lia.
        exact Hterm.
Qed.

Lemma readBlocks_no_terminator (k : nat) :
  forall (rest : list byte) (acc : list Uefi.Block),
    (length rest <= k)%nat ->
    (forall i, (8 * (i + 1) <= length rest)%nat ->
       isTerminator (Uefi.decodeBlock (firstn 8 (skipn (8 * i) rest))) = false) ->
    Uefi.readBlocks rest acc
    = Err (if (len rest) mod 8 =? 0 then EOF else ErrUnexpectedEOF).
Proof.
  induction k as [ | k IH ]; intros rest acc Hk Hno.
  - destruct rest; [ reflexivity | cbn in Hk; lia ].
  - destruct rest as [ | b0 [ | b1 [ | b2 [ | b3 [ | b4 [ | b5 [ | b6 [ | b7 rest ]]]]]]]];
      try reflexivity.
    cbn [Uefi.readBlocks].
    assert (H0 : isTerminator
                   (Uefi.decodeBlock [b0; b1; b2; b3; b4; b5; b6; b7]) = false)
      by exact (Hno 0%nat ltac:(cbn [length]; lia)).
    unfold isTerminator in H0. rewrite H0.
    rewrite (IH rest); [ | cbn [length] in Hk; lia | ].
    + f_equal. unfold len. cbn [length].
      replace (Z.of_nat (S (S (S (S (S (S (S (S (length rest))))))))))
        with (Z.of_nat (length rest) + 1 * 8) by lia.
      rewrite Z.mod_add by lia. reflexivity.
    + intros i Hi.
      specialize (Hno (S i) ltac:(cbn [length]; lia)).
      replace (8 * S i)%nat with (8 + 8 * i)%nat in Hno by lia.
      exact Hno.
Qed.

Section ParserShape.

Variable UUIDString : list byte -> string.

(** Inversion of a successful parse. *)
Lemma NewFirmwareVolume_Ok (data : slice) (fv : Uefi.FirmwareVolume) :
  Uefi.NewFirmwareVolume UUIDString data = Ok fv ->
  64 <= slen data
  /\ Uefi.FixedHeader fv = Uefi.decodeFixedHeader (firstn 56 (elems data))
  /\ (exists rest', Uefi.readBlocks (skipn 56 (elems data)) []
                    = Ok (Uefi.Blocks fv, rest'))
  /\ Uefi.readExtHeader data (Uefi.FixedHeader fv) = Ok (Uefi.ExtHeader fv)
  /\ reslice data 0 (Uefi.Length (Uefi.FixedHeader fv)) = Ok (Uefi.buf fv).
Proof.
  unfold Uefi.NewFirmwareVolume.
  destruct (slen data <? Uefi.FirmwareVolumeMinSize) eqn:E; [ discriminate | ].
  apply Z.ltb_ge in E. change Uefi.FirmwareVolumeMinSize with 64 in E.
  intros H. bind_inv H as r1 Hread. destruct r1 as [hb rest].
  apply readN_Ok in Hread. destruct Hread as [_ [-> ->]].
  bind_inv H as r2 Hblocks. destruct r2 as [blocks rest'].
  bind_inv H as ext Hext. bind_inv H as b Hbuf.
  injection H as <-. cbn [Uefi.FixedHeader Uefi.Blocks Uefi.ExtHeader Uefi.buf].
  split; [ exact E | ]. split; [ reflexivity | ].
  split; [ eauto | ]. split; assumption.
Qed.

(** X4: what a successful parse returns.  The input has at least 64 bytes,
    the fixed header is decoded from its first 56 bytes, the declared length
    is within the capacity of the input slice, and the volume's buffer is
    the first [Length] bytes of the input's array. *)
Theorem NewFirmwareVolume_buffer :
  forall (data : slice) (fv : Uefi.FirmwareVolume),
    Uefi.NewFirmwareVolume UUIDString data = Ok fv ->
    let h := Uefi.FixedHeader fv in
    64 <= slen data
    /\ h = Uefi.decodeFixedHeader (firstn 56 (elems data))
    /\ 0 <= Uefi.Length h <= scap data
    /\ elems (Uefi.buf fv)
       = firstn (Z.to_nat (Uefi.Length h)) (elems data ++ spare data)
    /\ slen (Uefi.buf fv) = Uefi.Length h.
Proof.
  intros data fv H h. apply NewFirmwareVolume_Ok in H.
  destruct H as [Hlen [Hh [_ [_ Hbuf]]]]. fold h in Hh, Hbuf.
  apply reslice_Ok in Hbuf. destruct Hbuf as [Hrange Helems].
  rewrite Z.sub_0_r in Helems. cbn [Z.to_nat skipn] in Helems.
  split; [ exact Hlen | ]. split; [ exact Hh | ].
  split; [ exact Hrange | ]. split; [ exact Helems | ].
  unfold slen, len. rewrite Helems, length_firstn, length_app.
  unfold scap, len in Hrange. lia.
Qed.

(** X5: the block map of a successful parse.  The returned blocks are the
    consecutive 8-byte entries from offset 56, none of them [(0, 0)], and
    the entry after them, still inside the input, is the [(0, 0)]
    terminator. *)
Theorem NewFirmwareVolume_block_map :
  forall (data : slice) (fv : Uefi.FirmwareVolume),
    Uefi.NewFirmwareVolume UUIDString data = Ok fv ->
    let n := length (Uefi.Blocks fv) in
    56 + 8 * (Z.of_nat n + 1) <= slen data
    /\ (forall i, (i < n)%nat ->
          nth i (Uefi.Blocks fv) (Uefi.mkBlock 0 0) = blockAt data i
          /\ isTerminator (blockAt data i) = false)
    /\ isTerminator (blockAt data n) = true.
Proof.
  intros data fv H n. apply NewFirmwareVolume_Ok in H.
  destruct H as [Hlen [_ [[rest' Hblocks] _]]].
  apply (readBlocks_Ok (length (skipn 56 (elems data)))) in Hblocks;
    [ | lia ].
  destruct Hblocks as [new [Enew [Hbound [Hnth Hterm]]]].
  cbn [app] in Enew. subst new. fold n in Hbound, Hnth, Hterm.
  rewrite length_skipn in Hbound. unfold slen, len in *.
  assert (Hskip : forall i, skipn (8 * i) (skipn 56 (elems data))
                            = skipn (56 + 8 * i) (elems data)).
  { intros i. rewrite skipn_skipn. f_equal. lia. }
  unfold blockAt.
  split; [ lia | ]. split.
  - intros i Hi. rewrite <- Hskip. apply Hnth. exact Hi.
  - rewrite <- Hskip. exact Hterm.
Qed.

(** X6: an input without terminator.  When no 8-byte entry from offset 56
    on is [(0, 0)], the parse of an input of at least 64 bytes ends with the
    reader's error: [io.EOF] when the entries fill the input, and
    [io.ErrUnexpectedEOF] when a partial entry is left. *)
Theorem NewFirmwareVolume_no_terminator :
  forall data : slice,
    64 <= slen data ->
    (forall i, 56 + 8 * (Z.of_nat i + 1) <= slen data ->
               isTerminator (blockAt data i) = false) ->
    Uefi.NewFirmwareVolume UUIDString data
    = Err (if (slen data) mod 8 =? 0 then EOF else ErrUnexpectedEOF).
Proof.
  intros data Hlen Hno. unfold Uefi.NewFirmwareVolume.
  replace (slen data <? Uefi.FirmwareVolumeMinSize) with false
    by (symmetry; apply Z.ltb_ge; exact Hlen).
  unfold slen, len in *.
  rewrite (readN_enough 56 (elems data)) by lia.
  cbn [bind].
  rewrite (readBlocks_no_terminator (length (skipn 56 (elems data))));
    [ | lia | ].
  - cbn [bind]. f_equal. unfold len. rewrite length_skipn.
    replace (Z.of_nat (length (elems data) - 56))
      with (Z.of_nat (length (elems data)) + (-7) * 8) by lia.
    rewrite Z.mod_add by lia. reflexivity.
  - intros i Hi. rewrite length_skipn in Hi.
    rewrite skipn_skipn. replace (8 * i + 56)%nat with (56 + 8 * i)%nat by lia.
    apply Hno. lia.
Qed.

(** X7: the extended header of a volume of at least 20 bytes.  After a
    successful parse with [Length >= 20], the extended header is the twenty
    bytes at [ExtHeaderOffset], all inside the input, when that offset is
    not zero and below [Length - 20]; otherwise it is left zero. *)
Theorem NewFirmwareVolume_ext_header :
  forall (data : slice) (fv : Uefi.FirmwareVolume),
    Uefi.NewFirmwareVolume UUIDString data = Ok fv ->
    20 <= Uefi.Length (Uefi.FixedHeader fv) ->
    let offset := Uefi.ExtHeaderOffset (Uefi.FixedHeader fv) in
    (offset <> 0 /\ offset < Uefi.Length (Uefi.FixedHeader fv) - 20 ->
     offset + 20 <= slen data
     /\ Uefi.ExtHeader fv
        = Uefi.decodeExtHeader
            (firstn 20 (skipn (Z.to_nat offset) (elems data))))
    /\ (offset = 0 \/ Uefi.Length (Uefi.FixedHeader fv) - 20 <= offset ->
        Uefi.ExtHeader fv = Uefi.zeroExtHeader).
Proof.
  intros data fv H Hlen offset. apply NewFirmwareVolume_Ok in H.
  destruct H as [_ [Hh [_ [Hext _]]]].
  assert (Hbound : Uefi.Length (Uefi.FixedHeader fv) < 2 ^ 64).
  { rewrite Hh. cbn [Uefi.decodeFixedHeader Uefi.Length].
    apply (field_bound 32 8). }
  assert (Hoff : 0 <= offset).
  { subst offset. rewrite Hh. cbn [Uefi.decodeFixedHeader Uefi.ExtHeaderOffset].
    apply (field_bound 52 2). }
  unfold Uefi.readExtHeader in Hext. fold offset in Hext.
  change Uefi.FirmwareVolumeExtHeaderMinSize with 20 in Hext.
  rewrite wrap64_small in Hext by lia.
  split.
  - intros [Hne Hlt].
    apply Z.eqb_neq in Hne. apply Z.ltb_lt in Hlt.
    rewrite Hne, Hlt in Hext. cbn [negb andb] in Hext.
    bind_inv Hext as r Hr. unfold reslice_from in Hr.
    destruct (slen data <? offset) eqn:E; [ discriminate | ].
    apply Z.ltb_ge in E. apply reslice_Ok in Hr. destruct Hr as [_ Er].
    destruct (readN 20 (elems r)) as [[b rest] | e | p | ] eqn:Eread;
      try discriminate.
    injection Hext as <-. apply readN_Ok in Eread.
    destruct Eread as [Hn [-> _]]. rewrite Er in Hn |- *.
    rewrite length_firstn, length_skipn, length_app in Hn.
    unfold slen, len in *.
    split; [ lia | ]. f_equal.
    rewrite firstn_firstn.
    replace (Nat.min 20 (Z.to_nat (Z.of_nat (length (elems data)) - offset)))
      with 20%nat by lia.
    rewrite skipn_app, firstn_app, length_skipn.
    replace (20 - (length (elems data) - Z.to_nat offset))%nat with 0%nat by lia.
    cbn [firstn]. now rewrite app_nil_r.
  - intros Hcase.
    assert (E : negb (offset =? 0)
                && (offset <? Uefi.Length (Uefi.FixedHeader fv) - 20) = false).
    { destruct Hcase as [-> | Hge]; [ reflexivity | ].
      apply andb_false_iff. right. apply Z.ltb_ge. exact Hge. }
    rewrite E in Hext. now injection Hext as <-.
Qed.

End ParserShape.

(** ** The parser statements on concrete inputs *)

Lemma FindFirmwareVolumeOffset_result_witness :
  Uefi.FindFirmwareVolumeOffset Images.padded = Ok 32
  /\ 32 <> -1
  /\ windowAt Images.padded 72 = Uefi.fvSig.
Proof.
  assert (H : Uefi.FindFirmwareVolumeOffset Images.padded = Ok 32)
    by (vm_compute; reflexivity).
  split; [ exact H | ]. split; [ discriminate | ].
  destruct (FindFirmwareVolumeOffset_result Images.padded 32 H)
    as [[Hr _] | [o [Ho [_ [_ [Hw _]]]]]].
  - discriminate Hr.
  - replace o with 72 in Hw by lia. exact Hw.
Defined.

Lemma NewFirmwareVolume_buffer_witness :
  exists fv,
    Uefi.NewFirmwareVolume Images.noName Images.image256 = Ok fv
    /\ 64 <= slen Images.image256
    /\ 0 <= Uefi.Length (Uefi.FixedHeader fv) <= scap Images.image256
    /\ slen (Uefi.buf fv) = Uefi.Length (Uefi.FixedHeader fv).
Proof.
  destruct (Uefi.NewFirmwareVolume Images.noName Images.image256)
    as [ fv | e | p | ] eqn:E; [ | vm_compute in E; discriminate E .. ].
  exists fv. split; [ reflexivity | ].
  destruct (NewFirmwareVolume_buffer Images.noName Images.image256 fv E)
    as [H1 [_ [H3 [_ H5]]]].
  split; [ exact H1 | ]. split; [ exact H3 | exact H5 ].
Defined.

Lemma NewFirmwareVolume_block_map_witness :
  exists fv,
    Uefi.NewFirmwareVolume Images.noName Images.image256 = Ok fv
    /\ 56 + 8 * (Z.of_nat (length (Uefi.Blocks fv)) + 1) <= slen Images.image256
    /\ isTerminator (blockAt Images.image256 (length (Uefi.Blocks fv))) = true.
Proof.
  destruct (Uefi.NewFirmwareVolume Images.noName Images.image256)
    as [ fv | e | p | ] eqn:E; [ | vm_compute in E; discriminate E .. ].
  exists fv. split; [ reflexivity | ].
  destruct (NewFirmwareVolume_block_map Images.noName Images.image256 fv E)
    as [H1 [_ H3]].
  split; [ exact H1 | exact H3 ].
Defined.

Lemma NewFirmwareVolume_no_terminator_witness :
  64 <= slen Images.erased64
  /\ (forall i, 56 + 8 * (Z.of_nat i + 1) <= slen Images.erased64 ->
                isTerminator (blockAt Images.erased64 i) = false)
  /\ Uefi.NewFirmwareVolume Images.noName Images.erased64 = Err EOF.
Proof.
  assert (H1 : 64 <= slen Images.erased64) by (vm_compute; discriminate).
  assert (H2 : forall i, 56 + 8 * (Z.of_nat i + 1) <= slen Images.erased64 ->
                         isTerminator (blockAt Images.erased64 i) = false).
  { intros i Hi. change (slen Images.erased64) with 64 in Hi.
    destruct i; [ vm_compute; reflexivity | lia ]. }
  split; [ exact H1 | ]. split; [ exact H2 | ].
  exact (NewFirmwareVolume_no_terminator Images.noName Images.erased64 H1 H2).
Defined.

Lemma NewFirmwareVolume_ext_header_witness :
  exists fv,
    Uefi.NewFirmwareVolume Images.noName Images.imageExt = Ok fv
    /\ 20 <= Uefi.Length (Uefi.FixedHeader fv)
    /\ Uefi.ExtHeaderOffset (Uefi.FixedHeader fv) <> 0
    /\ Uefi.ExtHeaderOffset (Uefi.FixedHeader fv)
       < Uefi.Length (Uefi.FixedHeader fv) - 20
    /\ Uefi.ExtHeader fv
       = Uefi.decodeExtHeader
           (firstn 20
              (skipn (Z.to_nat (Uefi.ExtHeaderOffset (Uefi.FixedHeader fv)))
                     (elems Images.imageExt))).
Proof.
  destruct (Uefi.NewFirmwareVolume Images.noName Images.imageExt)
    as [ fv | e | p | ] eqn:E; [ | vm_compute in E; discriminate E .. ].
  exists fv. split; [ reflexivity | ].
  assert (Hh : Uefi.Length (Uefi.FixedHeader fv) = 256
               /\ Uefi.ExtHeaderOffset (Uefi.FixedHeader fv) = 72).
  { vm_compute in E. injection E as <-. split; reflexivity. }
  destruct Hh as [Hl Ho].
  assert (H20 : 20 <= Uefi.Length (Uefi.FixedHeader fv)) by lia.
  assert (Hne : Uefi.ExtHeaderOffset (Uefi.FixedHeader fv) <> 0) by lia.
  assert (Hlt : Uefi.ExtHeaderOffset (Uefi.FixedHeader fv)
                < Uefi.Length (Uefi.FixedHeader fv) - 20) by lia.
  split; [ exact H20 | ]. split; [ exact Hne | ]. split; [ exact Hlt | ].
  destruct (NewFirmwareVolume_ext_header Images.noName Images.imageExt fv E H20)
    as [Hread _].
  destruct (Hread (conj Hne Hlt)) as [_ Hext]. exact Hext.
Defined.

(** ** More on the File case *)

Section RawFiles.

Import Visitors.

Context {L : Library}.

(** X8: a file without sections.  Visiting it leaves the erase polarity and
    the length of the buffer as they are, sets the State field and the byte
    at offset [0x17] to [0x07 xor polarity], and changes no other byte; a
    second visit changes nothing more. *)
Theorem VisitFile_raw_only_state_byte :
  forall (f : File) (polarity : byte),
    Sections f = [] ->
    24 <= len (FileBuf f) ->
    exists f',
      VisitFile f polarity = Ok (f', polarity)
      /\ len (FileBuf f') = len (FileBuf f)
      /\ nth 23 (FileBuf f') Byte.x00 = byte.xor Byte.x07 polarity
      /\ State (Header f') = byte.xor Byte.x07 polarity
      /\ (forall i, i <> 23%nat ->
            nth i (FileBuf f') Byte.x00 = nth i (FileBuf f) Byte.x00)
      /\ VisitFile f' polarity = Ok (f', polarity).
Proof.
  intros [h b sections]. cbn [Sections FileBuf]. intros polarity -> Hlen.
  assert (Hb : (24 <= length b)%nat) by (unfold len in Hlen; lia).
  set (state := byte.xor Byte.x07 polarity).
  set (b' := firstn 23 b ++ state :: skipn 24 b).
  assert (Lb' : length b' = length b).
  { subst b'. rewrite length_app, length_firstn. cbn [length].
    rewrite length_skipn. lia. }
  assert (Hvisit : forall h0 b0,
             (24 <= length b0)%nat ->
             VisitFile (mkFile h0 b0 []) polarity
             = Ok (mkFile (setState h0 state)
                          (firstn 23 b0 ++ state :: skipn 24 b0) [], polarity)).
  { intros h0 b0 H0. cbn [VisitFile applyChildren bind]. unfold assembleFile.
    cbn [Sections FileBuf Header].
    replace (len b0 <=? 23) with false
      by (symmetry; apply Z.leb_gt; unfold len; lia).
    reflexivity. }
  exists (mkFile (setState h state) b' []). cbn [FileBuf Header].
  split; [ apply Hvisit; exact Hb | ].
  split; [ unfold len; now rewrite Lb' | ].
  assert (H23 : nth 23 b' Byte.x00 = state).
  { subst b'. rewrite app_nth2; rewrite length_firstn; [ | lia ].
    replace (23 - Nat.min 23 (length b))%nat with 0%nat by lia. reflexivity. }
  split; [ exact H23 | ]. split; [ reflexivity | ].
  split.
  - intros i Hi. subst b'.
    destruct (Nat.lt_ge_cases i 23) as [Hlt | Hge].
    + rewrite app_nth1 by (rewrite length_firstn; lia).
      rewrite nth_firstn.
      replace (i <? 23)%nat with true by (symmetry; apply Nat.ltb_lt; lia).
      reflexivity.
    + rewrite app_nth2 by (rewrite length_firstn; lia).
      rewrite length_firstn.
      replace (i - Nat.min 23 (length b))%nat with (S (i - 24)) by lia.
      cbn [nth]. rewrite nth_skipn. f_equal. lia.
  - rewrite Hvisit by lia. f_equal. f_equal. f_equal.
    subst b'. rewrite firstn_app, length_firstn.
    replace (23 - Nat.min 23 (length b))%nat with 0%nat by lia.
    rewrite firstn_O, app_nil_r, firstn_firstn.
    replace (Nat.min 23 23) with 23%nat by lia. f_equal. f_equal.
    rewrite skipn_app, length_firstn.
    replace (24 - Nat.min 23 (length b))%nat with 1%nat by lia.
    rewrite skipn_all2 by (rewrite length_firstn; lia).
    reflexivity.
Qed.

(** A file without sections whose buffer is shorter than its header panics
    on the store at [0x17]. *)
Lemma VisitFile_raw_short (f : File) (polarity : byte) :
  Sections f = [] ->
  len (FileBuf f) < 24 ->
  VisitFile f polarity = Panic (IndexOutOfRange 23 (len (FileBuf f))).
Proof.
  destruct f as [h b sections]. cbn [Sections FileBuf]. intros -> Hlen.
  cbn [VisitFile applyChildren bind]. unfold assembleFile.
  cbn [Sections FileBuf].
  replace (len b <=? 23) with true by (symmetry; apply Z.leb_le; lia).
  reflexivity.
Qed.

Lemma assembleVolume_Files (polarity : byte) (f f' : FirmwareVolume) :
  assembleVolume polarity f = Ok f' -> Files f' = Files f.
Proof.
  unfold assembleVolume. destruct (Files f) as [ | file later ] eqn:E.
  - intros [= <-]. exact E.
  - destruct (Length (VolumeOf f) <? len (VolumeBuf f)); [ discriminate | ].
    destruct (negb (DataOffset (VolumeOf f) =? len (VolumeBuf f)));
      [ discriminate | ].
    intros H. bind_inv H as fvBuf Hplace. unfold finishVolume in H.
    bind_inv H as v Hv. bind_inv H as b1 Hpad. bind_inv H as b2 Hpatch.
    injection H as <-. cbn [Files]. exact E.
Qed.

Lemma applyChildren_raw_files (files : list File) :
  forall (polarity : byte) (files' : list File) (polarity' : byte),
    Forall (fun fl => Sections fl = []) files ->
    applyChildren VisitFile files polarity = Ok (files', polarity') ->
    polarity' = polarity
    /\ Forall (fun fl => nth 23 (FileBuf fl) Byte.x00 = byte.xor Byte.x07 polarity
                         /\ State (Header fl) = byte.xor Byte.x07 polarity)
              files'.
Proof.
  induction files as [ | fl later IH ]; intros polarity files' polarity' Hraw H;
    cbn [applyChildren] in H.
  - injection H as <- <-. auto.
  - inversion Hraw as [ | ? ? Hfl Hlater ]; subst.
    bind_inv H as r1 H1. destruct r1 as [fl' p1].
    bind_inv H as r2 H2. destruct r2 as [later' p2].
    injection H as <- <-.
    destruct (Z_lt_ge_dec (len (FileBuf fl)) 24) as [Hshort | Hlong].
    + rewrite (VisitFile_raw_short fl polarity Hfl Hshort) in H1. discriminate.
    + destruct (VisitFile_raw_only_state_byte fl polarity Hfl ltac:(lia))
        as [g [Hg [_ [Hbyte [Hstate _]]]]].
      rewrite Hg in H1. injection H1 as <- <-.
      destruct (IH _ _ _ Hlater H2) as [-> Hall].
      split; [ reflexivity | ]. constructor; auto.
Qed.

(** X9: a volume whose files have no sections.  When the assembler rebuilds
    it, the polarity left in force is the volume's own, and every file of the
    rebuilt volume carries the State [0x07 xor] that polarity, in its header
    and at offset [0x17] of its buffer. *)
Theorem VisitVolume_raw_files_state :
  forall (f f' : FirmwareVolume) (polarity polarity' : byte),
    Forall (fun fl => Sections fl = []) (Files f) ->
    VisitVolume f polarity = Ok (f', polarity') ->
    polarity' = GetErasePolarity (Attributes (VolumeOf f))
    /\ Forall (fun fl =>
                 nth 23 (FileBuf fl) Byte.x00 = byte.xor Byte.x07 polarity'
                 /\ State (Header fl) = byte.xor Byte.x07 polarity')
              (Files f').
Proof.
  intros [v b files] f' polarity polarity'. cbn [Files VolumeOf].
  intros Hraw H. cbn [VisitVolume] in H.
  bind_inv H as r Hchildren. destruct r as [files' p].
  bind_inv H as g Hasm. injection H as <- <-.
  destruct (applyChildren_raw_files _ _ _ _ Hraw Hchildren) as [-> Hall].
  split; [ reflexivity | ].
  rewrite (assembleVolume_Files _ _ _ Hasm). exact Hall.
Qed.

End RawFiles.

(** ** More on the FirmwareVolume case *)

Section VolumeBuffer.

Import Visitors.

(** Bytes of a buffer after a little-endian store. *)
Lemma putLE_nth (n : nat) (b b' : list byte) (off v : Z) (i : nat) (d : byte) :
  0 <= off ->
  putLE n b off v = Ok b' ->
  nth i b' d
  = if (Z.to_nat off <=? i)%nat && (i <? Z.to_nat off + n)%nat
    then nth (i - Z.to_nat off) (le_split n v) d
    else nth i b d.
Proof.
  intros Hoff H. apply putLE_Ok in H; [ | exact Hoff ].
  destruct H as [Hle ->]. unfold len in Hle.
  set (o := Z.to_nat off) in *.
  assert (Lf : length (firstn o b) = o) by (rewrite length_firstn; lia).
  destruct (Nat.leb_spec o i) as [Hoi | Hoi]; cbn [andb].
  - rewrite app_nth2 by lia. rewrite Lf.
    destruct (Nat.ltb_spec i (o + n)) as [Hin | Hin].
    + rewrite app_nth1 by (rewrite length_le_split; lia). reflexivity.
    + rewrite app_nth2 by (rewrite length_le_split; lia).
      rewrite length_le_split, nth_skipn. f_equal. lia.
  - rewrite app_nth1 by lia. rewrite nth_firstn.
    replace (i <? o)%nat with true by (symmetry; apply Nat.ltb_lt; lia).
    reflexivity.
Qed.

(** A window of a list is fixed by its bytes. *)
Lemma window_ext (o m : nat) (l l' : list byte) :
  length l = length l' ->
  (forall i, (o <= i < o + m)%nat -> nth i l Byte.x00 = nth i l' Byte.x00) ->
  firstn m (skipn o l) = firstn m (skipn o l').
Proof.
  intros Hlen Hnth. apply (nth_ext _ _ Byte.x00 Byte.x00).
  - rewrite !length_firstn, !length_skipn. lia.
  - intros i Hi. rewrite length_firstn, length_skipn in Hi.
    rewrite !nth_firstn, !nth_skipn.
    destruct (Nat.ltb_spec i m); [ apply Hnth; lia | reflexivity ].
Qed.

Lemma field_putLE_same (n : nat) (b b' : list byte) (off v : Z) :
  0 <= off ->
  putLE n b off v = Ok b' ->
  field (Z.to_nat off) n b' = v mod 2 ^ (Z.of_nat n * 8).
Proof.
  intros Hoff H. apply putLE_Ok in H; [ | exact Hoff ].
  destruct H as [Hle ->]. unfold len in Hle. unfold field.
  rewrite skipn_app, length_firstn.
  replace (Z.to_nat off - Nat.min (Z.to_nat off) (length b))%nat
    with 0%nat by lia.
  rewrite skipn_all2 by (rewrite length_firstn; lia).
  cbn [skipn app]. rewrite firstn_app, length_le_split, Nat.sub_diag.
  rewrite firstn_all2 by (rewrite length_le_split; lia).
  rewrite firstn_O, app_nil_r. apply le_combine_split.
Qed.

Lemma field_putLE_other (n : nat) (b b' : list byte) (off v : Z) (o m : nat) :
  0 <= off ->
  putLE n b off v = Ok b' ->
  (o + m <= Z.to_nat off \/ Z.to_nat off + n <= o)%nat ->
  field o m b' = field o m b.
Proof.
  intros Hoff H Hdisj. unfold field. f_equal.
  apply window_ext.
  - eapply putLE_length; eauto.
  - intros i Hi. rewrite (putLE_nth n b b' off v i _ Hoff H).
    destruct (Nat.leb_spec (Z.to_nat off) i);
      destruct (Nat.ltb_spec i (Z.to_nat off + n)); cbn [andb];
      try reflexivity; lia.
Qed.

Context {L : Library}.

(** The header patch on a buffer. *)
Lemma patchHeader_Ok (v : VolumeFields) (b b' : list byte) :
  0 <= HeaderLen v ->
  patchHeader v b = Ok b' ->
  exists b0 bs,
    Blocks v = b0 :: bs
    /\ length b' = length b
    /\ field 32 8 b' = (Length v) mod 2 ^ 64
    /\ field 56 4 b' = (Count b0) mod 2 ^ 32
    /\ Z.odd (HeaderLen v) = false
    /\ HeaderLen v <= len b
    /\ 60 <= len b
    /\ forall i, ~ (32 <= i < 40)%nat -> ~ (50 <= i < 52)%nat ->
                 ~ (56 <= i < 60)%nat ->
                 nth i b' Byte.x00 = nth i b Byte.x00.
Proof.
  intros Hh H. unfold patchHeader, PutUint64, PutUint32, PutUint16 in H.
  bind_inv H as b1 H1. bind_inv H as blk Hblk.
  destruct (Blocks v) as [ | b0 bs ] eqn:Eblocks; [ discriminate | ].
  injection Hblk as <-.
  bind_inv H as b2 H2. bind_inv H as b3 H3. bind_inv H as sum Hsum.
  destruct (len b3 <? HeaderLen v) eqn:Elen; [ discriminate | ].
  apply Z.ltb_ge in Elen.
  assert (L1 : length b1 = length b)
    by (apply (putLE_length 8 b b1 32 _ ltac:(lia) H1)).
  assert (L2 : length b2 = length b1)
    by (apply (putLE_length 4 b1 b2 56 _ ltac:(lia) H2)).
  assert (L3 : length b3 = length b2)
    by (apply (putLE_length 2 b2 b3 50 _ ltac:(lia) H3)).
  assert (L4 : length b' = length b3)
    by (apply (putLE_length 2 b3 b' 50 _ ltac:(lia) H)).
  exists b0, bs. split; [ reflexivity | ]. split; [ congruence | ].
  split.
  { rewrite (field_putLE_other 2 b3 b' 50 _ 32 8 ltac:(lia) H) by (left; lia).
    rewrite (field_putLE_other 2 b2 b3 50 _ 32 8 ltac:(lia) H3) by (left; lia).
    rewrite (field_putLE_other 4 b1 b2 56 _ 32 8 ltac:(lia) H2) by (left; lia).
    apply (field_putLE_same 8 b b1 32 _ ltac:(lia) H1). }
  split.
  { rewrite (field_putLE_other 2 b3 b' 50 _ 56 4 ltac:(lia) H) by (right; lia).
    rewrite (field_putLE_other 2 b2 b3 50 _ 56 4 ltac:(lia) H3) by (right; lia).
    apply (field_putLE_same 4 b1 b2 56 _ ltac:(lia) H2). }
  split.
  { apply Checksum16_Ok in Hsum. destruct Hsum as [Hodd _].
    unfold len in Hodd, Elen. rewrite length_firstn in Hodd.
    replace (Z.of_nat (Nat.min (Z.to_nat (HeaderLen v)) (length b3)))
      with (HeaderLen v) in Hodd by lia.
    exact Hodd. }
  split; [ unfold len in *; lia | ].
  split.
  { apply putLE_Ok in H2; [ | lia ]. destruct H2 as [H2 _].
    unfold len in *. lia. }
  intros i Ha Hb Hc.
  rewrite (putLE_nth 2 b3 b' 50 _ i _ ltac:(lia) H).
  rewrite (putLE_nth 2 b2 b3 50 _ i _ ltac:(lia) H3).
  rewrite (putLE_nth 4 b1 b2 56 _ i _ ltac:(lia) H2).
  rewrite (putLE_nth 8 b b1 32 _ i _ ltac:(lia) H1).
  repeat match goal with
         | |- context [(?x <=? ?y)%nat] => destruct (Nat.leb_spec x y)
         | |- context [(?x <? ?y)%nat] => destruct (Nat.ltb_spec x y)
         end; cbn [andb]; try reflexivity; lia.
Qed.

Lemma Erase_repeat (n : nat) (polarity : byte) :
  Erase (repeat Byte.x00 n) polarity = repeat polarity n.
Proof.
  unfold Erase. induction n as [ | n IH ]; cbn [repeat map]; congruence.
Qed.

Lemma padTail_Ok (polarity : byte) (v : VolumeFields) (b b' : list byte) :
  padTail polarity v b = Ok b' ->
  b' = b ++ repeat polarity (Z.to_nat (Length v - len b)).
Proof.
  unfold padTail. destruct (len b <? Length v) eqn:E.
  - destruct (2 ^ 63 <=? Length v - len b); [ discriminate | ].
    intros [= <-]. now rewrite Erase_repeat.
  - apply Z.ltb_ge in E. intros [= <-].
    replace (Z.to_nat (Length v - len b)) with 0%nat by lia.
    cbn [repeat]. now rewrite app_nil_r.
Qed.

(** Inversion of a successful volume case. *)
Lemma assembleVolume_Ok (polarity : byte) (f f' : FirmwareVolume) :
  assembleVolume polarity f = Ok f' ->
  Files f <> [] ->
  len (VolumeBuf f) <= Length (VolumeOf f)
  /\ DataOffset (VolumeOf f) = len (VolumeBuf f)
  /\ exists fvBuf,
       placeFiles polarity (Files f) (VolumeBuf f) (len (VolumeBuf f))
       = Ok fvBuf
       /\ resize (VolumeOf f) (len fvBuf) = Ok (VolumeOf f')
       /\ patchHeader (VolumeOf f')
            (fvBuf ++ repeat polarity
                        (Z.to_nat (Length (VolumeOf f') - len fvBuf)))
          = Ok (VolumeBuf f').
Proof.
  intros H Hfiles. unfold assembleVolume in H.
  destruct (Files f) as [ | file later ] eqn:E; [ congruence | ].
  destruct (Length (VolumeOf f) <? len (VolumeBuf f)) eqn:E1;
    [ discriminate | ].
  destruct (DataOffset (VolumeOf f) =? len (VolumeBuf f)) eqn:E2;
    [ | discriminate ].
  apply Z.ltb_ge in E1. apply Z.eqb_eq in E2. cbn [negb] in H.
  bind_inv H as fvBuf Hplace. unfold finishVolume in H.
  bind_inv H as v Hv. bind_inv H as b1 Hpad. bind_inv H as b2 Hpatch.
  injection H as <-. cbn [VolumeOf VolumeBuf].
  apply padTail_Ok in Hpad. subst b1. rewrite E2 in Hplace.
  split; [ exact E1 | ]. split; [ exact E2 | ]. eauto.
Qed.

(** X10: length of a rebuilt volume.  When the volume case succeeds on a
    volume with files, the emitted buffer is as long as the [Length] field
    says, that length is stored at offset 32 of the buffer, and it is at
    least the length the volume had; when the volume grew, the new length is
    a multiple of the first block's size and the first block's count is the
    quotient. *)
Theorem assembleVolume_length :
  forall (polarity : byte) (f f' : FirmwareVolume),
    assembleVolume polarity f = Ok f' ->
    Files f <> [] ->
    0 <= Length (VolumeOf f) < 2 ^ 64 ->
    0 <= HeaderLen (VolumeOf f) ->
    (forall b0 bs, Blocks (VolumeOf f) = b0 :: bs -> 0 <= Size b0 < 2 ^ 32) ->
    len (VolumeBuf f') < 2 ^ 63 ->
    len (VolumeBuf f') = Length (VolumeOf f')
    /\ field 32 8 (VolumeBuf f') = Length (VolumeOf f')
    /\ Length (VolumeOf f) <= Length (VolumeOf f')
    /\ (Length (VolumeOf f) = Length (VolumeOf f') ->
        VolumeOf f' = VolumeOf f)
    /\ (Length (VolumeOf f) < Length (VolumeOf f') ->
        exists b0 bs,
          Blocks (VolumeOf f) = b0 :: bs
          /\ (Length (VolumeOf f')) mod (Size b0) = 0
          /\ Blocks (VolumeOf f')
             = mkBlock (wrap32 (Length (VolumeOf f') / Size b0)) (Size b0)
                 :: bs).
Proof.
  intros polarity f f' H Hfiles HL Hh Hsize Hlen.
  destruct (assembleVolume_Ok _ _ _ H Hfiles)
    as [Hpre [_ [fvBuf [_ [Hresize Hpatch]]]]].
  assert (Hh' : 0 <= HeaderLen (VolumeOf f'))
    by (rewrite (resize_HeaderLen _ _ _ Hresize); exact Hh).
  destruct (patchHeader_Ok _ _ _ Hh' Hpatch)
    as [b0' [bs' [_ [Hlen' [Hfield [_ [_ [_ [_ _]]]]]]]]].
  set (v := VolumeOf f) in *. set (v' := VolumeOf f') in *.
  set (n := len fvBuf) in *.
  assert (Hn : 0 <= n) by apply len_nonneg.
  assert (Elen : len (VolumeBuf f') = n + Z.of_nat (Z.to_nat (Length v' - n))).
  { unfold len at 1. rewrite Hlen', length_app, repeat_length.
    subst n. unfold len. lia. }
  unfold resize in Hresize.
  destruct (Length v <? n) eqn:Egrow.
  - apply Z.ltb_lt in Egrow.
    destruct (Blocks v) as [ | b0 bs ] eqn:Eblocks; [ discriminate | ].
    destruct (Size b0 =? 0) eqn:Ezero; [ discriminate | ].
    apply Z.eqb_neq in Ezero. injection Hresize as Hv'.
    specialize (Hsize b0 bs eq_refl).
    assert (Hn63 : n < 2 ^ 63) by lia.
    destruct (Align_least_multiple n (Size b0)) as [Hrange [Hmod _]];
      try lia.
    assert (EL : Length v' = Align n (Size b0)) by (rewrite <- Hv'; reflexivity).
    assert (EB : Blocks v' = mkBlock (wrap32 (Align n (Size b0) / Size b0))
                                     (Size b0) :: bs)
      by (rewrite <- Hv'; reflexivity).
    rewrite <- EL in *.
    split; [ lia | ].
    split; [ rewrite Hfield; apply Z.mod_small; lia | ].
    split; [ lia | ]. split; [ lia | ].
    intros _. exists b0, bs. auto.
  - apply Z.ltb_ge in Egrow. injection Hresize as Hv'.
    rewrite <- Hv' in *.
    split; [ lia | ].
    split; [ rewrite Hfield; apply Z.mod_small; lia | ].
    split; [ lia | ]. split; [ reflexivity | lia ].
Qed.

(** X11: what the volume case writes.  The emitted buffer is the buffer the
    placement loop built, followed by erase-polarity bytes up to [Length],
    except for the three header fields the patch rewrites: bytes 32 to 39
    (length), 50 and 51 (checksum) and 56 to 59 (first block count). *)
Theorem assembleVolume_buffer :
  forall (polarity : byte) (f f' : FirmwareVolume),
    assembleVolume polarity f = Ok f' ->
    Files f <> [] ->
    0 <= HeaderLen (VolumeOf f) ->
    exists fvBuf,
      placeFiles polarity (Files f) (VolumeBuf f) (len (VolumeBuf f))
      = Ok fvBuf
      /\ length (VolumeBuf f')
         = length (fvBuf ++ repeat polarity
                     (Z.to_nat (Length (VolumeOf f') - len fvBuf)))
      /\ forall i,
           ~ (32 <= i < 40)%nat -> ~ (50 <= i < 52)%nat ->
           ~ (56 <= i < 60)%nat ->
           nth i (VolumeBuf f') Byte.x00
           = nth i (fvBuf ++ repeat polarity
                      (Z.to_nat (Length (VolumeOf f') - len fvBuf)))
                 Byte.x00.
Proof.
  intros polarity f f' H Hfiles Hh.
  destruct (assembleVolume_Ok _ _ _ H Hfiles)
    as [_ [_ [fvBuf [Hplace [Hresize Hpatch]]]]].
  assert (Hh' : 0 <= HeaderLen (VolumeOf f'))
    by (rewrite (resize_HeaderLen _ _ _ Hresize); exact Hh).
  destruct (patchHeader_Ok _ _ _ Hh' Hpatch)
    as [b0' [bs' [_ [Hlen' [_ [_ [_ [_ [_ Hnth]]]]]]]]].
  exists fvBuf. split; [ exact Hplace | ]. split; [ exact Hlen' | exact Hnth ].
Qed.


End VolumeBuffer.

(** ** Alignment of the placed files *)

Section FileAlignment.

Import Visitors.

Context {L : Library}.

Lemma placeFile_aligned (polarity : byte) (file : File) (b b' : list byte)
    (offset' : Z) :
  AlignmentEnumerated L ->
  PadFileSized L ->
  placeFile polarity file b (len b) = Ok (b', offset') ->
  len b' < 2 ^ 63 ->
  offset' = len b'
  /\ exists pre,
       b' = pre ++ FileBuf file
       /\ len b <= len pre
       /\ (len pre) mod 8 = 0
       /\ (len pre + FileHeaderLen file)
            mod (GetAlignment (FileAttributes (Header file))) = 0.
Proof.
  intros HA HP H Hlen.
  destruct (placeFile_extends _ _ _ _ _ _ H) as [added Eadd].
  assert (Hb : 0 <= len b < 2 ^ 63).
  { pose proof (len_nonneg b). pose proof (len_nonneg added).
    rewrite Eadd, len_app in Hlen. lia. }
  clear added Eadd.
  destruct (placeFile_layout _ _ _ _ _ HA HP H Hlen)
    as [pad [Hhole [_ [Hrule [Eb' [Eoff Elen]]]]]].
  split; [ exact Eoff | ].
  destruct (Align_least_multiple (len b) 8) as [Hal [Hal8 _]]; try lia.
  fold (Align8 (len b)) in Hal, Hal8.
  set (aligned := Align8 (len b)) in *.
  exists (b ++ repeat polarity (Z.to_nat (aligned - len b)) ++ pad).
  assert (Epre : len (b ++ repeat polarity (Z.to_nat (aligned - len b)) ++ pad)
                 = aligned + len pad).
  { rewrite !len_app, len_repeat. lia. }
  rewrite Epre. pose proof (len_nonneg pad) as Hpad.
  split; [ rewrite Eb'; now rewrite <- !app_assoc | ].
  split; [ lia | ].
  pose proof (HA (FileAttributes (Header file))) as Ha.
  pose proof (FileHeaderLen_cases file) as Hhl.
  set (a := GetAlignment (FileAttributes (Header file))) in *.
  set (hl := FileHeaderLen file) in *.
  destruct Hrule as [_ Hrule].
  destruct (a =? 1) eqn:Ea.
  - apply Z.eqb_eq in Ea. rewrite Hrule, Ea, Z.add_0_r, Z.mod_1_r.
    split; [ exact Hal8 | reflexivity ].
  - apply Z.eqb_neq in Ea.
    destruct (enumerated_base a Ha Ea) as [[Ha1 Ha2] Ha8].
    cbv zeta in Hrule.
    destruct (Align_least_multiple (aligned + hl) a) as [Hf [Hfd _]]; try lia.
    set (fdo := Align (aligned + hl) a) in *.
    destruct (Align_least_multiple (fdo + 1) a) as [_ [Hnd _]]; try lia.
    assert (Hdata : (aligned + len pad + hl) mod a = 0).
    { rewrite Hrule.
      destruct ((8 <=? fdo - hl - aligned)
                && (fdo - hl - aligned <? FileHeaderMinLength)); assumption. }
    split; [ | exact Hdata ].
    pose proof (multiple_of_multiple _ a ltac:(lia) Hdata Ha8) as H8.
    destruct Hhl as [Hhl | Hhl]; rewrite Hhl in H8;
      Z.div_mod_to_equations; lia.
Qed.

(** X13: alignment of every placed file.  After the placement loop each file
    of the volume starts at a multiple of eight in the buffer, and its data,
    right after its header, at a multiple of the alignment its attributes
    ask for. *)
Theorem placeFiles_files_aligned :
  forall (polarity : byte) (before : list File) (file : File)
         (after : list File) (fvBuf fvBuf' : list byte),
    AlignmentEnumerated L ->
    PadFileSized L ->
    placeFiles polarity (before ++ file :: after) fvBuf (len fvBuf) = Ok fvBuf' ->
    len fvBuf' < 2 ^ 63 ->
    exists pre post,
      fvBuf' = pre ++ FileBuf file ++ post
      /\ len fvBuf <= len pre
      /\ (len pre) mod 8 = 0
      /\ (len pre + FileHeaderLen file)
           mod (GetAlignment (FileAttributes (Header file))) = 0.
Proof.
  intros polarity before file after.
  induction before as [ | f0 before IH ]; intros fvBuf fvBuf' HA HP H Hlen;
    cbn [app placeFiles] in H.
  - bind_inv H as r Hfile. destruct r as [b1 offset1].
    destruct (placeFiles_extends _ _ _ _ _ H) as [post Epost].
    assert (Hb1 : len b1 < 2 ^ 63).
    { pose proof (len_nonneg post). rewrite Epost, len_app in Hlen. lia. }
    destruct (placeFile_aligned _ _ _ _ _ HA HP Hfile Hb1)
      as [_ [pre [Eb1 [Hle [H8 Ha]]]]].
    exists pre, post. rewrite Epost, Eb1, <- app_assoc. auto.
  - bind_inv H as r Hfile. destruct r as [b1 offset1].
    destruct (placeFiles_extends _ _ _ _ _ H) as [added Eadd].
    assert (Hb1 : len b1 < 2 ^ 63).
    { pose proof (len_nonneg added). rewrite Eadd, len_app in Hlen. lia. }
    destruct (placeFile_aligned _ _ _ _ _ HA HP Hfile Hb1)
      as [Eoff [pre0 [Eb1 [Hle0 _]]]].
    subst offset1.
    destruct (IH b1 fvBuf' HA HP H Hlen) as [pre [post [E [Hle [H8 Ha]]]]].
    exists pre, post. split; [ exact E | ].
    split; [ | auto ].
    pose proof (len_nonneg (FileBuf f0)).
    rewrite Eb1, len_app in Hle. lia.
Qed.

End FileAlignment.

(** ** More on the concatenation of sections *)

Section ConcatenationMore.

Import Visitors.

(** X14: the end of the concatenation.  The buffer ends with the last child:
    padding is put before a child, never after the last one, and the counter
    returned with the buffer is the buffer's length (on 64 bits). *)
Theorem concatAlign4_ends_with_last_child :
  forall (pre : list (list byte)) (c : list byte),
    let before := fst (concatAlign4 pre [] 0) in
    fst (concatAlign4 (pre ++ [c]) [] 0)
    = before ++ repeat Byte.x00 (Z.to_nat ((- len before) mod 4)) ++ c
    /\ snd (concatAlign4 (pre ++ [c]) [] 0)
       = wrap64 (len (fst (concatAlign4 (pre ++ [c]) [] 0))).
Proof.
  intros pre c before. split.
  - rewrite concatAlign4_app. fold before.
    rewrite (concatAlign4_counter pre [] 0) by reflexivity. fold before.
    cbn [concatAlign4 fst].
    rewrite Align4_count by apply wrap64_range.
    rewrite neg_wrap64_mod4. now rewrite <- app_assoc.
  - apply concatAlign4_counter. reflexivity.
Qed.

Context {L : Library}.

(** X15: the size of a rebuilt file.  A file with sections is handed to
    [ChecksumAndAssemble] with the concatenation of its sections' buffers,
    after [SetSize] was given the 24 bytes of the header plus the length of
    that concatenation (on 64 bits) and the State was set from the polarity
    in force. *)
Theorem assembleFile_size :
  forall (polarity : byte) (f : File),
    Sections f <> [] ->
    let fileData := fst (concatAlign4 (map SectionBuf (Sections f)) [] 0) in
    let sized := SetSize f (wrap64 (FileHeaderMinLength + len fileData)) true in
    assembleFile polarity f
    = ChecksumAndAssemble
        (mkFile (setState (Header sized) (byte.xor Byte.x07 polarity))
                (FileBuf sized) (Sections sized))
        fileData.
Proof.
  intros polarity f Hs fileData sized. unfold assembleFile.
  destruct (Sections f) as [ | s ss ] eqn:E; [ congruence | ].
  pose proof (concatAlign4_counter (map SectionBuf (s :: ss)) [] 0 eq_refl)
    as Hc.
  subst sized fileData.
  destruct (concatAlign4 (map SectionBuf (s :: ss)) [] 0) as [data dLen].
  cbn [fst snd] in *. subst dLen.
  replace (wrap64 (FileHeaderMinLength + wrap64 (len data)))
    with (wrap64 (FileHeaderMinLength + len data)); [ reflexivity | ].
  unfold wrap64. rewrite Zplus_mod_idemp_r. reflexivity.
Qed.

(** X16: a GUID-defined section that cannot be encoded.  When the children
    of a GUID-defined section with the PROCESSING_REQUIRED bit assemble and
    its GUID is neither the LZMA nor the LZMA-x86 one, the visit fails with
    the unknown-GUID error. *)
Theorem VisitSection_unknown_guid :
  forall (s : Section) (ts : SectionGUIDDefined) (polarity : byte)
         (children : list Firmware) (polarity' : byte),
    Encapsulated s <> [] ->
    applyChildren Visit (Encapsulated s) polarity = Ok (children, polarity') ->
    SectionType (SecHeader s) = SectionTypeGUIDDefined ->
    TypeSpecific (SecHeader s) = Some ts ->
    Z.land (GUIDAttributes ts) GUIDEDSectionProcessingRequired <> 0 ->
    GUID ts <> LZMAGUID ->
    GUID ts <> LZMAX86GUID ->
    VisitSection s polarity = Err ErrUnknownGUIDDefined.
Proof.
  intros [h b enc] ts polarity children polarity'.
  cbn [Encapsulated SecHeader]. intros Henc Hchildren Htype Hts Hbit Hg1 Hg2.
  cbn [VisitSection]. rewrite Hchildren. cbn [bind].
  assert (Hne : children <> []).
  { apply applyChildren_length in Hchildren.
    destruct children; [ | discriminate ].
    destruct enc; [ congruence | discriminate ]. }
  unfold assembleSection. cbn [Encapsulated SecHeader].
  destruct children as [ | c cs ]; [ congruence | ].
  destruct (concatAlign4 (map Buf (c :: cs)) [] 0) as [secData dLen].
  rewrite Htype, Z.eqb_refl, Hts.
  apply Z.eqb_neq in Hbit. rewrite Hbit. cbn [negb].
  destruct (bytes_Equal (GUID ts) LZMAGUID) eqn:E1;
    [ apply bytes_Equal_eq in E1; contradiction | ].
  destruct (bytes_Equal (GUID ts) LZMAX86GUID) eqn:E2;
    [ apply bytes_Equal_eq in E2; contradiction | ].
  reflexivity.
Qed.

End ConcatenationMore.

(** ** The BIOSRegion case *)

Section BIOSRegionFacts.

Import Visitors Regions.

Lemma skipn_repeat {A : Type} (x : A) (n : nat) :
  forall m, skipn n (repeat x m) = repeat x (m - n).
Proof.
  induction n as [ | n IH ]; intros m.
  - now rewrite Nat.sub_0_r.
  - destruct m as [ | m ]; [ reflexivity | ]. cbn [repeat skipn]. apply IH.
Qed.

Lemma copyElements_fits (elements : list Firmware) :
  forall (done rest : list byte),
    len done + len rest < 2 ^ 63 ->
    len (concat (map Buf elements)) <= len rest ->
    copyElements elements (done ++ rest) (len done)
    = Ok (done ++ concat (map Buf elements)
            ++ skipn (length (concat (map Buf elements))) rest).
Proof.
  induction elements as [ | e later IH ]; intros done rest Hbound Hfit;
    cbn [copyElements map concat].
  - reflexivity.
  - cbn [map concat] in Hfit. rewrite len_app in Hfit.
    pose proof (len_nonneg done) as Hd. pose proof (len_nonneg (Buf e)) as He.
    pose proof (len_nonneg (concat (map Buf later))) as Hl.
    rewrite wrap64_small by lia. rewrite len_app.
    replace (len done + len (Buf e) <? len done) with false
      by (symmetry; apply Z.ltb_ge; lia).
    replace (len done + len rest <? len done + len (Buf e)) with false
      by (symmetry; apply Z.ltb_ge; lia).
    cbn [orb].
    replace (Z.min (len done + len (Buf e) - len done) (len (Buf e)))
      with (len (Buf e)) by lia.
    replace (Z.to_nat (len done)) with (length done) by (unfold len; lia).
    replace (Z.to_nat (len (Buf e))) with (length (Buf e))
      by (unfold len; lia).
    replace (Z.to_nat (len done + len (Buf e)))
      with (length done + length (Buf e))%nat by (unfold len; lia).
    rewrite firstn_app, Nat.sub_diag, firstn_O, app_nil_r, firstn_all.
    rewrite firstn_all.
    rewrite skipn_app.
    rewrite skipn_all2 by lia.
    replace (length done + length (Buf e) - length done)%nat
      with (length (Buf e)) by lia.
    cbn [app].
    replace (done ++ Buf e ++ skipn (length (Buf e)) rest)
      with ((done ++ Buf e) ++ skipn (length (Buf e)) rest)
      by (now rewrite <- app_assoc).
    replace (len done + len (Buf e)) with (len (done ++ Buf e))
      by (now rewrite len_app).
    assert (Hrest : len (skipn (length (Buf e)) rest) = len rest - len (Buf e)).
    { unfold len in *. rewrite length_skipn. lia. }
    rewrite IH.
    + rewrite <- !app_assoc. f_equal. f_equal. f_equal. f_equal.
      rewrite skipn_skipn, length_app. f_equal. lia.
    + rewrite len_app, Hrest. lia.
    + rewrite Hrest. lia.
Qed.

Lemma copyElements_overflow (elements : list Firmware) :
  forall (fBuf : list byte) (offset : Z),
    0 <= offset <= len fBuf ->
    len fBuf < 2 ^ 63 ->
    Forall (fun e => len (Buf e) < 2 ^ 63) elements ->
    len fBuf < offset + len (concat (map Buf elements)) ->
    exists p, copyElements elements fBuf offset = Panic p.
Proof.
  induction elements as [ | e later IH ]; intros fBuf offset Hoff Hlen Hall Hover;
    cbn [copyElements map concat] in *.
  - change (len []) with 0 in Hover. lia.
  - inversion Hall as [ | ? ? He Hlater ]; subst.
    rewrite len_app in Hover.
    pose proof (len_nonneg (Buf e)) as Hnn.
    rewrite wrap64_small by lia.
    replace (offset + len (Buf e) <? offset) with false
      by (symmetry; apply Z.ltb_ge; lia).
    cbn [orb].
    destruct (len fBuf <? offset + len (Buf e)) eqn:E; [ eauto | ].
    apply Z.ltb_ge in E.
    replace (Z.min (offset + len (Buf e) - offset) (len (Buf e)))
      with (len (Buf e)) by lia.
    apply IH; try assumption.
    + rewrite !len_app. unfold len in *.
      rewrite !length_firstn, length_skipn. lia.
    + rewrite !len_app. unfold len in *.
      rewrite !length_firstn, length_skipn. lia.
    + rewrite !len_app. unfold len in *.
      rewrite !length_firstn, length_skipn. lia.
Qed.

Context {L : Library}.

Variable FirstFV : BIOSRegion -> result FirmwareVolume.

(** X17: the buffer of a BIOS region whose elements fit.  The rebuilt buffer
    has the declared length: the buffers of the elements one after the other
    from offset 0, then bytes of the erase polarity of the region's first
    volume, which is also the polarity left in force. *)
Theorem assembleBIOSRegion_layout :
  forall (f : BIOSRegion) (firstFV : FirmwareVolume),
    FirstFV f = Ok firstFV ->
    0 <= RegionLength f < 2 ^ 63 ->
    len (concat (map Buf (Elements f))) <= RegionLength f ->
    let polarity := GetErasePolarity (Attributes (VolumeOf firstFV)) in
    let filled := concat (map Buf (Elements f)) in
    assembleBIOSRegion FirstFV f
    = Ok (mkBIOSRegion (RegionLength f)
            (filled ++ repeat polarity
                         (Z.to_nat (RegionLength f) - length filled))
            (Elements f),
          polarity)
    /\ len (filled ++ repeat polarity
                        (Z.to_nat (RegionLength f) - length filled))
       = RegionLength f.
Proof.
  intros f firstFV Hfirst Hlen Hfit polarity filled.
  split.
  - unfold assembleBIOSRegion.
    replace (2 ^ 63 <=? RegionLength f) with false
      by (symmetry; apply Z.leb_gt; lia).
    rewrite Hfirst. cbn [bind]. fold polarity. rewrite Erase_repeat.
    pose proof (copyElements_fits (Elements f) []
                  (repeat polarity (Z.to_nat (RegionLength f)))) as Hcopy.
    cbn [app] in Hcopy. change (len []) with 0 in Hcopy.
    rewrite Hcopy.
    + cbn [bind]. fold filled. rewrite skipn_repeat. reflexivity.
    + rewrite len_repeat. lia.
    + rewrite len_repeat. lia.
  - subst filled. rewrite len_app, len_repeat. unfold len in *. lia.
Qed.

(** X18: a BIOS region whose elements do not fit.  When the buffers of the
    elements are together longer than the declared length, the slice
    expression of the copy loop panics: the region is not rebuilt. *)
Theorem assembleBIOSRegion_overflow :
  forall (f : BIOSRegion) (firstFV : FirmwareVolume),
    FirstFV f = Ok firstFV ->
    0 <= RegionLength f < 2 ^ 63 ->
    Forall (fun e => len (Buf e) < 2 ^ 63) (Elements f) ->
    RegionLength f < len (concat (map Buf (Elements f))) ->
    exists p, assembleBIOSRegion FirstFV f = Panic p.
Proof.
  intros f firstFV Hfirst Hlen Hall Hover. unfold assembleBIOSRegion.
  replace (2 ^ 63 <=? RegionLength f) with false
    by (symmetry; apply Z.leb_gt; lia).
  rewrite Hfirst. cbn [bind]. rewrite Erase_repeat.
  destruct (copyElements_overflow (Elements f)
              (repeat (GetErasePolarity (Attributes (VolumeOf firstFV)))
                      (Z.to_nat (RegionLength f))) 0) as [p Hp].
  - rewrite len_repeat. lia.
  - rewrite len_repeat. lia.
  - exact Hall.
  - rewrite len_repeat. lia.
  - rewrite Hp. cbn [bind]. eauto.
Qed.

End BIOSRegionFacts.

(** ** The FlashImage case *)

Section FlashImageFacts.

Import Regions.

Lemma insertBack_Permutation (x : region) (prefix : list region) :
  Permutation (insertBack x prefix) (x :: prefix).
Proof.
  induction prefix as [ | y before IH ]; cbn [insertBack].
  - apply Permutation_refl.
  - destruct (lessBase x y).
    + eapply Permutation_trans; [ apply perm_skip, IH | apply perm_swap ].
    + apply Permutation_refl.
Qed.

Lemma fold_insertBack_Permutation (regions : list region) :
  forall prefix,
    Permutation (fold_left (fun p x => insertBack x p) regions prefix)
                (regions ++ prefix).
Proof.
  induction regions as [ | x regions IH ]; intros prefix; cbn [fold_left app].
  - apply Permutation_refl.
  - eapply Permutation_trans; [ apply IH | ].
    eapply Permutation_trans;
      [ apply Permutation_app_head, insertBack_Permutation | ].
    apply Permutation_sym, Permutation_middle.
Qed.

Lemma sortSlice_Permutation (regions : list region) :
  Permutation (sortSlice regions) regions.
Proof.
  unfold sortSlice.
  eapply Permutation_trans; [ apply Permutation_sym, Permutation_rev | ].
  eapply Permutation_trans; [ apply fold_insertBack_Permutation | ].
  now rewrite app_nil_r.
Qed.

Lemma insertBack_descending (x : region) (prefix : list region) :
  StronglySorted descending prefix ->
  StronglySorted descending (insertBack x prefix).
Proof.
  induction prefix as [ | y before IH ]; intros Hs; cbn [insertBack].
  - constructor; constructor.
  - inversion Hs as [ | ? ? Hbefore Hy ]; subst.
    unfold lessBase. destruct (Flash.Base (fst x) <? Flash.Base (fst y)) eqn:E.
    + apply Z.ltb_lt in E. constructor; [ apply IH; exact Hbefore | ].
      eapply Permutation_Forall;
        [ apply Permutation_sym, insertBack_Permutation | ].
      constructor; [ unfold descending; lia | exact Hy ].
    + apply Z.ltb_ge in E. constructor; [ exact Hs | ].
      constructor; [ exact E | ].
      eapply Forall_impl; [ | exact Hy ].
      unfold descending. intros z Hz. lia.
Qed.

Lemma fold_insertBack_descending (regions : list region) :
  forall prefix,
    StronglySorted descending prefix ->
    StronglySorted descending
      (fold_left (fun p x => insertBack x p) regions prefix).
Proof.
  induction regions as [ | x regions IH ]; intros prefix Hs; cbn [fold_left].
  - exact Hs.
  - apply IH, insertBack_descending, Hs.
Qed.

Lemma rev_descending (l : list region) :
  StronglySorted descending l -> StronglySorted ascending (rev l).
Proof.
  induction l as [ | x l IH ]; intros Hs; cbn [rev].
  - constructor.
  - inversion Hs as [ | ? ? Hl Hx ]; subst.
    assert (Happ : forall l1,
               StronglySorted ascending l1 ->
               Forall (fun y => ascending y x) l1 ->
               StronglySorted ascending (l1 ++ [x])).
    { induction l1 as [ | y l1 IH1 ]; intros H1 H2; cbn [app].
      - constructor; constructor.
      - inversion H1; inversion H2; subst.
        constructor; [ apply IH1; assumption | ].
        apply Forall_app. split; [ assumption | constructor; auto ]. }
    apply Happ; [ apply IH; exact Hl | ].
    apply Forall_rev. exact Hx.
Qed.

Lemma sortSlice_ascending (regions : list region) :
  StronglySorted ascending (sortSlice regions).
Proof.
  unfold sortSlice. apply rev_descending, fold_insertBack_descending.
  constructor.
Qed.

Lemma appendRegion_inr (r : Flash.Region) (node : option (list byte))
    (missing : imageError) (regions regions' : list region) :
  appendRegion r node missing regions = inr regions' ->
  regions' = regions ++ declared r node.
Proof.
  unfold appendRegion, declared. destruct (Flash.Valid r).
  - destruct node; [ | discriminate ]. now intros [= <-].
  - intros [= <-]. now rewrite app_nil_r.
Qed.

(** X19: the image the FlashImage case builds.  On success the buffer is the
    IFD buffer followed by the buffers of exactly the regions the IFD
    declares valid, BIOS among them, in ascending order of [Base]. *)
Theorem assembleFlashImage_sorted :
  forall (f : FlashImage) (out : list byte),
    assembleFlashImage f = inr out ->
    exists regions,
      out = IFDBuf f ++ concat (map snd regions)
      /\ Permutation regions (declaredRegions f)
      /\ StronglySorted ascending regions
      /\ exists biosbuf, BIOS f = Some biosbuf
                         /\ In (RegionBIOS f, biosbuf) regions.
Proof.
  intros f out H. unfold assembleFlashImage in H.
  destruct (Flash.Valid (RegionBIOS f)) eqn:Ev; [ | discriminate ].
  cbn [negb] in H.
  destruct (BIOS f) as [ biosbuf | ] eqn:Eb; [ | discriminate ].
  destruct (appendRegion (RegionME f) (ME f) ErrNoME [(RegionBIOS f, biosbuf)])
    as [ e | r1 ] eqn:E1; [ discriminate | ].
  destruct (appendRegion (RegionGBE f) (GBE f) ErrNoGBE r1)
    as [ e | r2 ] eqn:E2; [ discriminate | ].
  destruct (appendRegion (RegionPD f) (PD f) ErrNoPD r2)
    as [ e | r3 ] eqn:E3; [ discriminate | ].
  injection H as <-.
  apply appendRegion_inr in E1, E2, E3.
  assert (Er3 : r3 = declaredRegions f).
  { assert (Hb : declared (RegionBIOS f) (BIOS f) = [(RegionBIOS f, biosbuf)])
      by (unfold declared; rewrite Ev, Eb; reflexivity).
    unfold declaredRegions. rewrite Hb, E3, E2, E1.
    now rewrite <- !app_assoc. }
  exists (sortSlice r3).
  split; [ reflexivity | ].
  split; [ rewrite <- Er3; apply sortSlice_Permutation | ].
  split; [ apply sortSlice_ascending | ].
  exists biosbuf. split; [ reflexivity | ].
  eapply Permutation_in; [ apply Permutation_sym, sortSlice_Permutation | ].
  rewrite E3, E2, E1. rewrite <- !app_assoc. left. reflexivity.
Qed.

(** X20: when the FlashImage case succeeds.  It builds an image exactly when
    the BIOS region is valid and has a node, and each of the ME, GBE and PD
    regions that the IFD declares valid has a node. *)
Theorem assembleFlashImage_succeeds_iff :
  forall f : FlashImage,
    (exists out, assembleFlashImage f = inr out)
    <-> (Flash.Valid (RegionBIOS f) = true
         /\ BIOS f <> None
         /\ (Flash.Valid (RegionME f) = true -> ME f <> None)
         /\ (Flash.Valid (RegionGBE f) = true -> GBE f <> None)
         /\ (Flash.Valid (RegionPD f) = true -> PD f <> None)).
Proof.
  intros f. unfold assembleFlashImage, appendRegion.
  destruct (Flash.Valid (RegionBIOS f)); cbn [negb];
    [ | split; [ intros [out H]; discriminate | intros [H _]; discriminate ] ].
  destruct (BIOS f) as [ biosbuf | ];
    [ | split; [ intros [out H]; discriminate | intros [_ [H _]]; congruence ] ].
  destruct (Flash.Valid (RegionME f)), (ME f) as [ mebuf | ];
    destruct (Flash.Valid (RegionGBE f)), (GBE f) as [ gbebuf | ];
    destruct (Flash.Valid (RegionPD f)), (PD f) as [ pdbuf | ];
    (split;
     [ intros [out H]; try discriminate;
       repeat split; try discriminate; intros; discriminate
     | intros [_ [_ [H1 [H2 H3]]]];
       try (exfalso; apply H1; reflexivity);
       try (exfalso; apply H2; reflexivity);
       try (exfalso; apply H3; reflexivity);
       eexists; reflexivity ]).
Qed.

End FlashImageFacts.

(** ** The assembler statements on concrete inputs *)

Section AssemblerWitnesses.

Import Visitors Regions.

Lemma VisitFile_raw_only_state_byte_witness :
  Sections (Examples.rawFile 0 Byte.x00 [Byte.xaa; Byte.xbb]) = []
  /\ 24 <= len (FileBuf (Examples.rawFile 0 Byte.x00 [Byte.xaa; Byte.xbb]))
  /\ exists f',
       VisitFile (L := Reference.library)
         (Examples.rawFile 0 Byte.x00 [Byte.xaa; Byte.xbb]) Byte.xff
       = Ok (f', Byte.xff)
       /\ nth 23 (FileBuf f') Byte.x00 = byte.xor Byte.x07 Byte.xff.
Proof.
  assert (H1 : Sections (Examples.rawFile 0 Byte.x00 [Byte.xaa; Byte.xbb]) = [])
    by reflexivity.
  assert (H2 : 24 <= len (FileBuf (Examples.rawFile 0 Byte.x00
                                     [Byte.xaa; Byte.xbb])))
    by (vm_compute; discriminate).
  split; [ exact H1 | ]. split; [ exact H2 | ].
  destruct (VisitFile_raw_only_state_byte (L := Reference.library)
              _ Byte.xff H1 H2) as [f' [Hv [_ [Hb _]]]].
  exists f'. split; [ exact Hv | exact Hb ].
Defined.

Lemma VisitVolume_raw_files_state_witness :
  exists f' polarity',
    Forall (fun fl => Sections fl = []) (Files Examples.volume72)
    /\ VisitVolume (L := Reference.library) Examples.volume72 Byte.x00
       = Ok (f', polarity')
    /\ polarity' = Byte.xff
    /\ Forall (fun fl => nth 23 (FileBuf fl) Byte.x00
                         = byte.xor Byte.x07 polarity'
                         /\ State (Header fl) = byte.xor Byte.x07 polarity')
              (Files f').
Proof.
  destruct (VisitVolume (L := Reference.library) Examples.volume72 Byte.x00)
    as [ [f' polarity'] | e | p | ] eqn:E;
    [ | vm_compute in E; discriminate E .. ].
  exists f', polarity'.
  assert (Hraw : Forall (fun fl => Sections fl = []) (Files Examples.volume72))
    by (repeat constructor).
  split; [ exact Hraw | ]. split; [ reflexivity | ].
  destruct (VisitVolume_raw_files_state (L := Reference.library)
              _ _ _ _ Hraw E) as [Hp Hall].
  split; [ exact Hp | exact Hall ].
Defined.

Lemma assembleVolume_length_witness :
  exists f',
    assembleVolume (L := Reference.library) Byte.xff Examples.volume72 = Ok f'
    /\ Files Examples.volume72 <> []
    /\ 0 <= Length (VolumeOf Examples.volume72) < 2 ^ 64
    /\ 0 <= HeaderLen (VolumeOf Examples.volume72)
    /\ len (VolumeBuf f') < 2 ^ 63
    /\ len (VolumeBuf f') = Length (VolumeOf f')
    /\ field 32 8 (VolumeBuf f') = Length (VolumeOf f').
Proof.
  destruct (assembleVolume (L := Reference.library) Byte.xff Examples.volume72)
    as [ f' | e | p | ] eqn:E; [ | vm_compute in E; discriminate E .. ].
  exists f'.
  assert (H1 : Files Examples.volume72 <> []) by discriminate.
  assert (H2 : 0 <= Length (VolumeOf Examples.volume72) < 2 ^ 64)
    by (vm_compute; split; [ discriminate | reflexivity ]).
  assert (H3 : 0 <= HeaderLen (VolumeOf Examples.volume72))
    by (vm_compute; discriminate).
  assert (H4 : forall b0 bs,
             Blocks (VolumeOf Examples.volume72) = b0 :: bs ->
             0 <= Size b0 < 2 ^ 32).
  { intros b0 bs Hb. injection Hb as <- _. vm_compute.
    split; [ discriminate | reflexivity ]. }
  assert (H5 : len (VolumeBuf f') < 2 ^ 63).
  { assert (El : len (VolumeBuf f') = 256).
    { vm_compute in E. injection E as <-. reflexivity. }
    rewrite El. reflexivity. }
  split; [ reflexivity | ]. split; [ exact H1 | ]. split; [ exact H2 | ].
  split; [ exact H3 | ]. split; [ exact H5 | ].
  destruct (assembleVolume_length (L := Reference.library)
              Byte.xff Examples.volume72 f' E H1 H2 H3 H4 H5)
    as [Ha [Hb _]].
  split; [ exact Ha | exact Hb ].
Defined.

Lemma assembleVolume_buffer_witness :
  exists f' fvBuf,
    assembleVolume (L := Reference.library) Byte.xff Examples.volume72 = Ok f'
    /\ Files Examples.volume72 <> []
    /\ 0 <= HeaderLen (VolumeOf Examples.volume72)
    /\ placeFiles (L := Reference.library) Byte.xff
         (Files Examples.volume72) (VolumeBuf Examples.volume72)
         (len (VolumeBuf Examples.volume72)) = Ok fvBuf
    /\ nth 255 (VolumeBuf f') Byte.x00
       = nth 255 (fvBuf ++ repeat Byte.xff
                    (Z.to_nat (Length (VolumeOf f') - len fvBuf))) Byte.x00.
Proof.
  destruct (assembleVolume (L := Reference.library) Byte.xff Examples.volume72)
    as [ f' | e | p | ] eqn:E; [ | vm_compute in E; discriminate E .. ].
  assert (H1 : Files Examples.volume72 <> []) by discriminate.
  assert (H3 : 0 <= HeaderLen (VolumeOf Examples.volume72))
    by (vm_compute; discriminate).
  destruct (assembleVolume_buffer (L := Reference.library)
              Byte.xff Examples.volume72 f' E H1 H3)
    as [fvBuf [Hplace [_ Hnth]]].
  exists f', fvBuf.
  split; [ reflexivity | ]. split; [ exact H1 | ]. split; [ exact H3 | ].
  split; [ exact Hplace | ]. apply Hnth; lia.
Defined.


Lemma placeFiles_files_aligned_witness :
  exists fvBuf' pre post,
    placeFiles (L := Reference.library) Byte.xff
      ([Examples.rawFile 0 Byte.xf8 []]
         ++ Examples.rawFile 0x08 Byte.xf8 [Byte.xaa; Byte.xbb] :: [])
      (Examples.volumeHeader Examples.polarityFF 72)
      (len (Examples.volumeHeader Examples.polarityFF 72))
    = Ok fvBuf'
    /\ len fvBuf' < 2 ^ 63
    /\ fvBuf' = pre ++ FileBuf (Examples.rawFile 0x08 Byte.xf8
                                  [Byte.xaa; Byte.xbb]) ++ post
    /\ (len pre) mod 8 = 0
    /\ (len pre + FileHeaderLen (L := Reference.library)
                    (Examples.rawFile 0x08 Byte.xf8 [Byte.xaa; Byte.xbb]))
         mod 16 = 0.
Proof.
  destruct (placeFiles (L := Reference.library) Byte.xff
              ([Examples.rawFile 0 Byte.xf8 []]
                 ++ Examples.rawFile 0x08 Byte.xf8 [Byte.xaa; Byte.xbb] :: [])
              (Examples.volumeHeader Examples.polarityFF 72)
              (len (Examples.volumeHeader Examples.polarityFF 72)))
    as [ fvBuf' | e | p | ] eqn:E;
    [ | vm_compute in E; discriminate E .. ].
  assert (Hlen : len fvBuf' < 2 ^ 63).
  { assert (El : len fvBuf' = 146).
    { vm_compute in E. injection E as <-. reflexivity. }
    rewrite El. reflexivity. }
  destruct (placeFiles_files_aligned (L := Reference.library) Byte.xff
              [Examples.rawFile 0 Byte.xf8 []]
              (Examples.rawFile 0x08 Byte.xf8 [Byte.xaa; Byte.xbb]) []
              (Examples.volumeHeader Examples.polarityFF 72) fvBuf'
              Reference_AlignmentEnumerated Reference_PadFileSized E Hlen)
    as [pre [post [Eb [_ [H8 Ha]]]]].
  exists fvBuf', pre, post.
  split; [ reflexivity | ]. split; [ exact Hlen | ]. split; [ exact Eb | ].
  split; [ exact H8 | exact Ha ].
Defined.

Lemma assembleFile_size_witness :
  Sections Examples.imageFile <> []
  /\ assembleFile (L := Reference.library) Byte.xff Examples.imageFile
     = @ChecksumAndAssemble Reference.library
         (mkFile
            (setState
               (Header (@SetSize Reference.library Examples.imageFile
                          (wrap64 (FileHeaderMinLength + 0)) true))
               (byte.xor Byte.x07 Byte.xff))
            [] (Sections Examples.imageFile))
         [].
Proof.
  assert (H : Sections Examples.imageFile <> []) by discriminate.
  split; [ exact H | ].
  exact (assembleFile_size (L := Reference.library) Byte.xff
           Examples.imageFile H).
Defined.

Lemma VisitSection_unknown_guid_witness :
  exists ts children polarity',
    Encapsulated Samples.unknownSection <> []
    /\ applyChildren (Visit (L := Reference.library))
         (Encapsulated Samples.unknownSection) Byte.xff
       = Ok (children, polarity')
    /\ TypeSpecific (SecHeader Samples.unknownSection) = Some ts
    /\ VisitSection (L := Reference.library) Samples.unknownSection Byte.xff
       = Err ErrUnknownGUIDDefined.
Proof.
  destruct (applyChildren (Visit (L := Reference.library))
              (Encapsulated Samples.unknownSection) Byte.xff)
    as [ [children polarity'] | e | p | ] eqn:E;
    [ | vm_compute in E; discriminate E .. ].
  exists (mkSectionGUIDDefined (repeat Byte.x44 16) 24 1), children, polarity'.
  assert (H1 : Encapsulated Samples.unknownSection <> []) by discriminate.
  split; [ exact H1 | ]. split; [ reflexivity | ]. split; [ reflexivity | ].
  apply (VisitSection_unknown_guid (L := Reference.library)
           Samples.unknownSection
           (mkSectionGUIDDefined (repeat Byte.x44 16) 24 1)
           Byte.xff children polarity' H1 E).
  - reflexivity.
  - reflexivity.
  - vm_compute. discriminate.
  - vm_compute. discriminate.
  - vm_compute. discriminate.
Defined.

Lemma assembleBIOSRegion_layout_witness :
  exists firstFV,
    Samples.firstFV sampleRegion = Ok firstFV
    /\ 0 <= RegionLength sampleRegion < 2 ^ 63
    /\ len (concat (map Buf (Elements sampleRegion)))
       <= RegionLength sampleRegion
    /\ assembleBIOSRegion (L := Reference.library) Samples.firstFV sampleRegion
       = Ok (mkBIOSRegion 8
               [Byte.x01; Byte.x02; Byte.x03; Byte.x0a; Byte.x0b;
                Byte.xff; Byte.xff; Byte.xff]
               (Elements sampleRegion),
             Byte.xff).
Proof.
  destruct (Samples.firstFV sampleRegion) as [ firstFV | e | p | ] eqn:E;
    [ | vm_compute in E; discriminate E .. ].
  exists firstFV.
  assert (H2 : 0 <= RegionLength sampleRegion < 2 ^ 63)
    by (vm_compute; split; [ discriminate | reflexivity ]).
  assert (H3 : len (concat (map Buf (Elements sampleRegion)))
               <= RegionLength sampleRegion) by (vm_compute; discriminate).
  split; [ reflexivity | ]. split; [ exact H2 | ]. split; [ exact H3 | ].
  destruct (assembleBIOSRegion_layout (L := Reference.library)
              Samples.firstFV sampleRegion firstFV E H2 H3) as [Hok _].
  rewrite Hok. vm_compute in E. injection E as <-. reflexivity.
Defined.

Lemma assembleBIOSRegion_overflow_witness :
  exists firstFV p,
    Samples.firstFV Samples.smallRegion = Ok firstFV
    /\ 0 <= RegionLength Samples.smallRegion < 2 ^ 63
    /\ RegionLength Samples.smallRegion
       < len (concat (map Buf (Elements Samples.smallRegion)))
    /\ assembleBIOSRegion (L := Reference.library) Samples.firstFV
         Samples.smallRegion = Panic p.
Proof.
  destruct (Samples.firstFV Samples.smallRegion) as [ firstFV | e | p | ] eqn:E;
    [ | vm_compute in E; discriminate E .. ].
  assert (H2 : 0 <= RegionLength Samples.smallRegion < 2 ^ 63)
    by (vm_compute; split; [ discriminate | reflexivity ]).
  assert (H3 : Forall (fun e => len (Buf e) < 2 ^ 63)
                      (Elements Samples.smallRegion))
    by (repeat constructor).
  assert (H4 : RegionLength Samples.smallRegion
               < len (concat (map Buf (Elements Samples.smallRegion))))
    by (vm_compute; reflexivity).
  destruct (assembleBIOSRegion_overflow (L := Reference.library)
              Samples.firstFV Samples.smallRegion firstFV E H2 H3 H4)
    as [p Hp].
  exists firstFV, p.
  split; [ reflexivity | ]. split; [ exact H2 | ]. split; [ exact H4 | exact Hp ].
Defined.

Lemma assembleFlashImage_sorted_witness :
  exists out regions,
    assembleFlashImage sampleImage = inr out
    /\ out = IFDBuf sampleImage ++ concat (map snd regions)
    /\ Permutation regions (declaredRegions sampleImage)
    /\ StronglySorted ascending regions.
Proof.
  destruct (assembleFlashImage sampleImage) as [ e | out ] eqn:E;
    [ vm_compute in E; discriminate E | ].
  destruct (assembleFlashImage_sorted sampleImage out E)
    as [regions [Eout [Hperm [Hsorted _]]]].
  exists out, regions.
  split; [ reflexivity | ]. split; [ exact Eout | ].
  split; [ exact Hperm | exact Hsorted ].
Defined.

End AssemblerWitnesses.

(** The sample image: ME (pages 1 to 15) comes before BIOS (pages 16 to 31),
    the invalid GBE entry is left out although it has a node. *)
Example assembleFlashImage_sample :
  Regions.assembleFlashImage Regions.sampleImage
  = inr [Byte.x5a; Byte.x5a; Byte.x5a; Byte.x5a;
         Byte.xe1; Byte.xb1; Byte.xb2].
Proof. reflexivity. Qed.

(** ** Range of the returned offset *)

(** X21: the offsets [FindFirmwareVolumeOffset] can return.  A returned
    offset is -1, or a multiple of eight from -8 on that leaves room for the
    signature, 40 bytes further, inside the slice's length plus three; -8 is
    returned when the signature sits at offset 32. *)
Theorem FindFirmwareVolumeOffset_range :
  forall (data : slice) (r : Z),
    Uefi.FindFirmwareVolumeOffset data = Ok r ->
    r = -1 \/ (-8 <= r /\ r mod 8 = 0 /\ r + 40 < slen data
               /\ r + 44 <= scap data).
Proof.
  intros data r H.
  destruct (FindFirmwareVolumeOffset_result data r H)
    as [[-> _] | [o [-> [Ho [Hm [Hw _]]]]]]; [ left; reflexivity | right ].
  split; [ lia | ]. split; [ Z.div_mod_to_equations; lia | ].
  split; [ lia | ].
  assert (Hlen : length (windowAt data o) = 4%nat) by (rewrite Hw; reflexivity).
  unfold windowAt in Hlen. rewrite length_firstn, length_skipn, length_app in Hlen.
  unfold scap, len. lia.
Qed.

Lemma FindFirmwareVolumeOffset_range_witness :
  Uefi.FindFirmwareVolumeOffset Images.signatureAt32 = Ok (-8)
  /\ (-8 = -1 \/ (-8 <= -8 /\ (-8) mod 8 = 0 /\ -8 + 40 < slen Images.signatureAt32
                  /\ -8 + 44 <= scap Images.signatureAt32)).
Proof.
  assert (H : Uefi.FindFirmwareVolumeOffset Images.signatureAt32 = Ok (-8))
    by (vm_compute; reflexivity).
  split; [ exact H | ].
  exact (FindFirmwareVolumeOffset_range Images.signatureAt32 (-8) H).
Defined.

(** ** Shape of the rebuilt tree *)

Section TreeShape.

Import Visitors.

Context {L : Library}.

Lemma applyChildren_Forall2 {A : Type} (visit : A -> byte -> result (A * byte))
    (P : A -> A -> Prop) :
  (forall c c' p p', visit c p = Ok (c', p') -> P c c') ->
  forall children polarity children' polarity',
    applyChildren visit children polarity = Ok (children', polarity') ->
    Forall2 P children children'.
Proof.
  intros Hvisit. induction children as [ | c later IH ];
    intros polarity children' polarity' H; cbn [applyChildren] in H.
  - injection H as <- <-. constructor.
  - bind_inv H as r1 H1. destruct r1 as [c' p1].
    bind_inv H as r2 H2. destruct r2 as [later' p2].
    injection H as <- <-. constructor; eauto.
Qed.

(** X22: the files of a rebuilt volume.  The assembler rebuilds the buffer
    of a volume but not its list of files: the rebuilt volume has as many
    files as before, in the same order and under the same UUID, type and
    attributes as long as they have no sections; the pad files it
    synthesises exist in the buffer only. *)
Theorem VisitVolume_keeps_files :
  forall (f f' : FirmwareVolume) (polarity polarity' : byte),
    VisitVolume f polarity = Ok (f', polarity') ->
    Forall2 (fun fl fl' =>
               Sections fl = [] ->
               Sections fl' = []
               /\ UUID (Header fl') = UUID (Header fl)
               /\ FileType (Header fl') = FileType (Header fl)
               /\ FileAttributes (Header fl') = FileAttributes (Header fl)
               /\ FileSize (Header fl') = FileSize (Header fl))
            (Files f) (Files f').
Proof.
  intros [v b files] f' polarity polarity' H. cbn [VisitVolume] in H.
  bind_inv H as r Hchildren. destruct r as [files' p].
  bind_inv H as g Hasm. injection H as <- <-.
  rewrite (assembleVolume_Files _ _ _ Hasm). cbn [Files].
  eapply applyChildren_Forall2; [ | exact Hchildren ].
  intros [h0 b0 ss] c' p0 p' Hc. cbn [Sections Header]. intros ->.
  cbn [VisitFile applyChildren bind] in Hc. unfold assembleFile in Hc.
  cbn [Sections FileBuf Header] in Hc.
  destruct (len b0 <=? 23); [ discriminate | ].
  cbn [bind] in Hc. injection Hc as <- <-. cbn. auto.
Qed.

End TreeShape.

Lemma VisitVolume_keeps_files_witness :
  exists f' polarity',
    Visitors.VisitVolume (L := Reference.library) Examples.volume72 Byte.x00
    = Ok (f', polarity')
    /\ length (Visitors.Files f') = length (Visitors.Files Examples.volume72).
Proof.
  destruct (Visitors.VisitVolume (L := Reference.library)
              Examples.volume72 Byte.x00)
    as [ [f' polarity'] | e | p | ] eqn:E;
    [ | vm_compute in E; discriminate E .. ].
  exists f', polarity'. split; [ reflexivity | ].
  symmetry. eapply Forall2_length.
  exact (VisitVolume_keeps_files (L := Reference.library) _ _ _ _ E).
Defined.
